(** * native-variants: the variant resolution engine of [create-nva]

    A shallow embedding of [createCacheKey], [normalizeVariantValue],
    [applyVariant], [applyCompound], [computeSlotStyles], [expandUtils] and
    its siblings, the theme merge of [createNVA], the memoising
    [computeStyles] closures returned by the two [styled] functions,
    [clearStyleCache] and the pure computations of [ThemeProvider],
    followed by the properties of the engine.

    Modelling conventions.
    - A JavaScript object used as a record of properties is an ordered
      association list ([obj A]): the list order is the property iteration
      order ([for .. in], [Object.keys], spread).  A well-formed object has
      pairwise distinct keys ([Obj.wf]).  New properties are appended:
      this is the order of JavaScript for the names that are [ordinaryKey]s,
      that is, neither array indices (which JavaScript iterates first, in
      ascending order) nor [__proto__] (whose assignment creates no
      property); statements about key order assume such names.
    - [key in utils] also finds the names every object inherits from
      [Object.prototype] ([objectPrototypeNames]); [expandUtils] models
      them.
    - A JavaScript value is a [value]; numbers are the integer-valued ones.
      [toString v] is [String(v)] on the [stringifiable] values: the
      integers that a double represents exactly and prints digit by digit,
      and the objects that do not redefine [toString].
      Configurations follow their TypeScript types: an optional property
      is an [option], [None] standing for [undefined].
    - [Map] and [WeakMap] caches are finite maps ([gmap]); an object used as
      a cache key is represented by its identity, a natural number.  The
      caches that live in a closure are fields of the store, indexed by the
      identity of the closure's [configRef].
    - Result objects live in a heap; a reference is an index into it, so
      that "identical by reference" is equality of references.
    - The default token tables of [../tokens/default-tokens] are a
      parameter ([DefaultTokens]). *)

From Stdlib Require Import ZArith DecimalString OrdersEx.
From stdpp Require Import gmap strings list sorting.

Local Open Scope string_scope.
Local Open Scope list_scope.
Set Warnings "-register-all".

(** ** JavaScript values *)

Inductive value : Type :=
  | VUndefined
  | VNull
  | VBool (b : bool)
  | VNum (n : Z)
  | VStr (s : string)
  | VObj (fields : list (string * value)).

Abbreviation obj A := (list (string * A)) (only parsing).

(** [v === undefined] *)
Definition is_undefined (v : value) : bool :=
  match v with VUndefined => true | _ => false end.

(** [v === undefined || v === null], the test behind [??] and [?.] *)
Definition is_nullish (v : value) : bool :=
  match v with VUndefined | VNull => true | _ => false end.

(** JavaScript truthiness. *)
Definition truthy (v : value) : bool :=
  match v with
  | VUndefined | VNull => false
  | VBool b => b
  | VNum n => negb (n =? 0)%Z
  | VStr s => negb (bool_decide (s = ""))
  | VObj _ => true
  end.

(** [String(v)] *)
Definition toString (v : value) : string :=
  match v with
  | VUndefined => "undefined"
  | VNull => "null"
  | VBool true => "true"
  | VBool false => "false"
  | VNum n => NilZero.string_of_int (Z.to_int n)
  | VStr s => s
  | VObj _ => "[object Object]"
  end.

(** The values on which [toString] is JavaScript's [String]: a number
    below [2^53] in absolute value is a double and is printed with all its
    digits (from [1e21] on, [String] switches to exponent notation, and
    beyond [2^53] not every integer is a number); an object without a
    [toString] property of its own inherits the one that prints
    ["[object Object]"]. *)
Definition stringifiable (v : value) : Prop :=
  match v with
  | VNum n => (- 2 ^ 53 < n < 2 ^ 53)%Z
  | VObj fields => "toString" ∉ fields.*1
  | _ => True
  end.

#[global] Instance stringifiable_dec v : Decision (stringifiable v).
Proof. destruct v; simpl; apply _. Defined.

(** ** Objects as ordered association lists *)

Module Obj.
Section ops.
Context {A : Type}.

(** [Object.keys(o)] *)
Definition keys (o : obj A) : list string := o.*1.

(** [o[k]]; [None] stands for an absent property. *)
Fixpoint get (k : string) (o : obj A) : option A :=
  match o with
  | [] => None
  | (k', v) :: o' => if decide (k = k') then Some v else get k o'
  end.

(** [k in o] (own properties only). *)
Definition has (k : string) (o : obj A) : bool :=
  match get k o with Some _ => true | None => false end.

(** [o[k] = v]: an existing property keeps its position. *)
Fixpoint set (k : string) (v : A) (o : obj A) : obj A :=
  match o with
  | [] => [(k, v)]
  | (k', v') :: o' =>
      if decide (k = k') then (k', v) :: o' else (k', v') :: set k v o'
  end.

(** [Object.assign(target, source)] *)
Definition assign (target source : obj A) : obj A :=
  fold_left (fun acc kv => set kv.1 kv.2 acc) source target.

(** The object literal [{...o1, ...o2, ...}]. *)
Definition spread (parts : list (obj A)) : obj A :=
  fold_left assign parts [].

Definition wf (o : obj A) : Prop := NoDup (keys o).

#[global] Instance wf_dec (o : obj A) : Decision (wf o).
Proof. unfold wf. apply _. Defined.

(** The value a sequence of shallow merges leaves at [k]: the one of the
    last object of the sequence that has the property. *)
Definition lastDefined (k : string) (parts : list (obj A)) : option A :=
  fold_left (fun acc o => match get k o with Some v => Some v | None => acc end)
            parts None.

(** Key order produced by assigning keys [ks] onto an object whose keys
    are [acc]: new keys are appended in order of first appearance. *)
Definition extend (acc ks : list string) : list string :=
  fold_left (fun acc k => if decide (k ∈ acc) then acc else acc ++ [k]) ks acc.
End ops.
End Obj.

(** An array index: the canonical decimal form of an integer from [0] to
    [2^32 - 2].  JavaScript iterates the properties with such names first,
    in ascending numeric order. *)
Definition arrayIndex (k : string) : bool :=
  match NilZero.uint_of_string k with
  | Some u =>
      bool_decide (NilZero.string_of_uint (N.to_uint (N.of_uint u)) = k)
      && (N.of_uint u <? 4294967295)%N
  | None => false
  end.

(** The property names for which assignment appends a property at the end
    of the iteration order. *)
Definition ordinaryKey (k : string) : Prop :=
  arrayIndex k = false /\ k <> "__proto__".

#[global] Instance ordinaryKey_dec k : Decision (ordinaryKey k).
Proof. unfold ordinaryKey. apply _. Defined.

(** The property names every object inherits from [Object.prototype]. *)
Definition objectPrototypeNames : list string :=
  ["constructor"; "__defineGetter__"; "__defineSetter__"; "hasOwnProperty";
   "__lookupGetter__"; "__lookupSetter__"; "isPrototypeOf";
   "propertyIsEnumerable"; "toString"; "valueOf"; "__proto__"; "toLocaleString"].

(** The own enumerable properties of a string, as the spread [{...s}]
    copies them. *)
Fixpoint stringChars (i : nat) (s : string) : obj value :=
  match s with
  | EmptyString => []
  | String c s' =>
      (NilZero.string_of_uint (Nat.to_uint i), VStr (String c EmptyString))
        :: stringChars (S i) s'
  end.

(** The properties the spread [{...v}] copies from a value. *)
Definition spreadValue (v : value) : obj value :=
  match v with
  | VObj fields => fields
  | VStr s => stringChars 0 s
  | _ => []
  end.

(** [Object.prototype[key](value)], called as [expandUtils] calls a macro
    (a plain call, so without receiver): the properties [Object.assign]
    copies from the result, [None] where the call raises a [TypeError].
    [constructor] is [Object], and [Object(value)] is the value as an
    object; [toString] answers ["[object Undefined]"] for the missing
    receiver; [isPrototypeOf] answers [false] for a primitive argument and
    needs its receiver for an object; the other functions need their
    receiver, and [__proto__] is not a function. *)
Definition inheritedUtil (key : string) (v : value) : option (obj value) :=
  if decide (key = "constructor") then Some (spreadValue v)
  else if decide (key = "toString") then Some (stringChars 0 "[object Undefined]")
  else if decide (key = "isPrototypeOf") then
    match v with VObj _ => None | _ => Some [] end
  else None.

(** ** Cache keys and normalisation (lines 46-79) *)

(** [createCacheKey(props)] *)
Definition createCacheKey (props : option (obj value)) : string :=
  match props with
  | None => "{}"
  | Some props =>
      let keys := Obj.keys props in
      if decide (length keys = 0) then "{}" else
      let keys := merge_sort String.le keys in
      let key :=
        fold_left
          (fun key k =>
             let v := default VUndefined (Obj.get k props) in
             if is_undefined v then key
             else key +:+ k +:+ ":" +:+ toString v +:+ ";")
          keys "" in
      if decide (key = "") then "{}" else key
  end.

Arguments createCacheKey : simpl never.

(** [normalizeVariantValue(value)] *)
Definition normalizeVariantValue (v : value) : string :=
  match v with
  | VBool b => if b then "true" else "false"
  | _ => toString v
  end.

(** ** Configurations (the types of [../types]) *)

(** [Styles]: property name to value. *)
Abbreviation Styles := (obj value) (only parsing).

(** [Base<S> = Partial<Record<S, Styles>>]: a slot may be bound to
    [undefined] ([None]). *)
Abbreviation Base := (obj (option (obj value))) (only parsing).

(** [Variants<S>]: axis ?-> label -> slot ?-> styles. *)
Abbreviation Variants :=
  (obj (option (obj (obj (option (obj value)))))) (only parsing).

(** [CompoundVariant<S, V>], already destructured as
    [const { css, ...conditions } = cv]. *)
Record CompoundVariant : Type := {
  css : option Base;
  conditions : obj value;
}.

(** [Config<S, V>] (and [ConfigWithUtils], which has the same shape). *)
Record Config : Type := {
  slots : list string;
  base : option Base;
  variants : option Variants;
  defaultVariants : option (obj value);
  compoundVariants : option (list CompoundVariant);
}.

(** [Record<S, Styles>], the object [computeStyles] returns. *)
Abbreviation Result := (obj (obj value)) (only parsing).

(** [UtilsConfig]: macro name to macro. *)
Abbreviation UtilsConfig := (obj (value -> obj value)) (only parsing).

(** ** The variant resolver (lines 93-199) *)

(** [variantConfig[normalizedValue]?.[slot]] *)
Definition styleForValue (variantConfig : obj Base) (normalizedValue slot : string)
  : option Styles :=
  match Obj.get normalizedValue variantConfig with
  | Some slotStyles => mjoin (Obj.get slot slotStyles)
  | None => None
  end.

(** [applyVariant(slot, variants, props)] *)
Definition applyVariant (slot : string) (variants : Variants) (props : obj value)
  : Styles :=
  fold_left
    (fun style '(variantKey, variantConfig) =>
       match Obj.get variantKey props with
       | None => style
       | Some value =>
           if is_undefined value then style else
           match variantConfig with
           | None => style
           | Some variantConfig =>
               let normalizedValue := normalizeVariantValue value in
               match styleForValue variantConfig normalizedValue slot with
               | Some styleForValue => Obj.spread [style; styleForValue]
               | None => style
               end
           end
       end)
    variants [].

(** The inner loop of [applyCompound]: every condition of the compound
    variant agrees with the props after normalisation. *)
Definition isMatch (conditions props : obj value) : bool :=
  forallb
    (fun '(condKey, condValue) =>
       if decide (condKey = "css") then true else
       let propValue := default VUndefined (Obj.get condKey props) in
       let normalizedCond := normalizeVariantValue condValue in
       let normalizedProp := normalizeVariantValue propValue in
       bool_decide (normalizedCond = normalizedProp))
    conditions.

(** [css?.[slot]] *)
Definition cssFor (cv : CompoundVariant) (slot : string) : option Styles :=
  match css cv with
  | Some css => mjoin (Obj.get slot css)
  | None => None
  end.

(** [applyCompound(slot, compoundVariants, props)] *)
Definition applyCompound (slot : string) (compoundVariants : list CompoundVariant)
    (props : obj value) : Styles :=
  fold_left
    (fun style cv =>
       if isMatch (conditions cv) props then
         match cssFor cv slot with
         | Some cssSlot => Obj.spread [style; cssSlot]
         | None => style
         end
       else style)
    compoundVariants [].

(** [computeSlotStyles(slot, base, variants, compoundVariants, props)] *)
Definition computeSlotStyles (slot : string) (base : Base) (variants : Variants)
    (compoundVariants : list CompoundVariant) (props : obj value) : Styles :=
  let baseStyle := default [] (mjoin (Obj.get slot base)) in
  let variantStyle := applyVariant slot variants props in
  let compoundStyle := applyCompound slot compoundVariants props in
  Obj.spread [baseStyle; variantStyle; compoundStyle].

(** The loop [for (i ...) result[slot] = computeSlotStyles(...)] shared by
    the three [computeStyles] bodies. *)
Definition computeAllSlots (frozenSlots : list string) (base : Base)
    (variants : Variants) (compoundVariants : list CompoundVariant)
    (resolvedProps : obj value) : Result :=
  fold_left
    (fun result slot =>
       Obj.set slot
         (computeSlotStyles slot base variants compoundVariants resolvedProps)
         result)
    frozenSlots [].

(** [resolvedProps = {...defaultVariants}] followed by the loop copying every
    prop whose value is not [undefined] (lines 263-272, 874-885, 921-932). *)
Definition resolveProps (defaultVariants props : obj value) : obj value :=
  fold_left
    (fun resolvedProps '(key, value) =>
       if is_undefined value then resolvedProps
       else Obj.set key value resolvedProps)
    props (Obj.spread [defaultVariants]).

(** The same loop with the extra guard [key !== "theme"] of line 881. *)
Definition resolvePropsNoTheme (defaultVariants props : obj value) : obj value :=
  fold_left
    (fun resolvedProps '(key, value) =>
       if negb (is_undefined value) && bool_decide (key <> "theme")
       then Obj.set key value resolvedProps
       else resolvedProps)
    props (Obj.spread [defaultVariants]).

(** *** The resolver as the specification words it (section 4.3)

    The styles of the variant axes that match the selections, in the key
    order of the variant table. *)
Definition matchingVariantStyles (slot : string) (variants : Variants)
    (selections : obj value) : list Styles :=
  omap
    (fun '(axis, labels) =>
       selected ← Obj.get axis selections;
       if is_undefined selected then None else
       labels ← labels;
       styleForValue labels (normalizeVariantValue selected) slot)
    variants.

(** The [css[slot]] of the compound variants all of whose conditions match,
    in declaration order. *)
Definition matchingCompoundStyles (slot : string)
    (compoundVariants : list CompoundVariant) (selections : obj value)
  : list Styles :=
  omap
    (fun cv => if isMatch (conditions cv) selections then cssFor cv slot else None)
    compoundVariants.

(** *** The resolver in the specification's own terms (sections 3 and 4.3)

    These definitions use none of the functions of the code.  The label of
    a value: a boolean maps to ["true"] or ["false"], every other value
    stringifies. *)
Definition labelSpec (v : value) : string :=
  match v with
  | VBool true => "true"
  | VBool false => "false"
  | _ => toString v
  end.

(** The style map a slot table binds to a slot, if any. *)
Definition slotStyleOf (slot : string) (table : Base) : option Styles :=
  match Obj.get slot table with
  | Some (Some style) => Some style
  | _ => None
  end.

(** What an axis of the variant table contributes to a slot: the style its
    table has for the label of the value selected for the axis.  An axis
    without selection, or selected with [undefined], contributes nothing. *)
Definition axisStyleSpec (slot : string) (selections : obj value)
    (entry : string * option (obj Base)) : option Styles :=
  match Obj.get entry.1 selections, entry.2 with
  | Some selected, Some labels =>
      if is_undefined selected then None else
      match Obj.get (labelSpec selected) labels with
      | Some table => slotStyleOf slot table
      | None => None
      end
  | _, _ => None
  end.

(** A condition [axis = value] matches when the value and the selection
    for the axis have the same label; a missing selection has the label
    of [undefined]. *)
Definition conditionMatches (selections : obj value) (cond : string * value) : bool :=
  bool_decide
    (labelSpec cond.2 = labelSpec (default VUndefined (Obj.get cond.1 selections))).

(** What a compound variant contributes to a slot: its [css[slot]] when
    all its conditions match. *)
Definition compoundStyleSpec (slot : string) (selections : obj value)
    (cv : CompoundVariant) : option Styles :=
  if forallb (conditionMatches selections) (conditions cv)
  then match css cv with Some table => slotStyleOf slot table | None => None end
  else None.

(** [base[slot]], the contributions of the axes in the key order of the
    variant table, and those of the compound variants in declaration
    order. *)
Definition baseStyleSpec (slot : string) (base : Base) : Styles :=
  default [] (slotStyleOf slot base).

Definition axisStylesSpec (slot : string) (variants : Variants)
    (selections : obj value) : list Styles :=
  omap (axisStyleSpec slot selections) variants.

Definition compoundStylesSpec (slot : string)
    (compoundVariants : list CompoundVariant) (selections : obj value)
  : list Styles :=
  omap (compoundStyleSpec slot selections) compoundVariants.

(** The merged style of a slot: the base style, shallow-merged with the
    axis contributions, shallow-merged with the compound contributions. *)
Definition mergedStyleSpec (slot : string) (base : Base) (variants : Variants)
    (compoundVariants : list CompoundVariant) (selections : obj value) : Styles :=
  Obj.spread
    (baseStyleSpec slot base
       :: axisStylesSpec slot variants selections
       ++ compoundStylesSpec slot compoundVariants selections).

(** ** The utility expander (lines 426-543) *)

(** [expandUtils(style, utils)].  The test [key in utils] (line 437) holds
    for the macros of the table and for the names the table inherits from
    [Object.prototype]; for an inherited name [utils[key]] is the inherited
    function.  Where that call raises ([inheritedUtil] is [None]) the code
    has no result: the model then passes the entry over, and
    [expandUtilsRaises] tells these inputs. *)
Definition expandUtils (style : option Styles) (utils : UtilsConfig) : Styles :=
  match style with
  | None => []
  | Some style =>
      fold_left
        (fun result '(key, value) =>
           match Obj.get key utils with
           | Some utilFn =>
               let expandedStyles := utilFn value in
               Obj.assign result expandedStyles
           | None =>
               if bool_decide (key ∈ objectPrototypeNames) then
                 match inheritedUtil key value with
                 | Some expandedStyles => Obj.assign result expandedStyles
                 | None => result
                 end
               else Obj.set key value result
           end)
        style []
  end.

(** The inputs on which [expandUtils] raises a [TypeError]: some key of
    the style is no macro of the table but an inherited name whose
    function cannot be called as a macro. *)
Definition expandUtilsRaises (style : option Styles) (utils : UtilsConfig) : bool :=
  existsb
    (fun '(key, value) =>
       match Obj.get key utils with
       | Some _ => false
       | None =>
           bool_decide (key ∈ objectPrototypeNames)
           && match inheritedUtil key value with Some _ => false | None => true end
       end)
    (default [] style).

(** The loop [for (slot in o) result[slot] = expandUtils(o[slot], utils)]. *)
Definition expandSlots (o : Base) (utils : UtilsConfig) : Base :=
  fold_left
    (fun result '(slot, style) => Obj.set slot (Some (expandUtils style utils)) result)
    o [].

(** [expandBaseUtils(base, utils)] *)
Definition expandBaseUtils (base : option Base) (utils : UtilsConfig) : Base :=
  match base with
  | None => []
  | Some base => expandSlots base utils
  end.

(** [expandVariantsUtils(variants, utils)] *)
Definition expandVariantsUtils (variants : option Variants) (utils : UtilsConfig)
  : Variants :=
  match variants with
  | None => []
  | Some variants =>
      fold_left
        (fun result '(variantKey, variantValues) =>
           match variantValues with
           | None => result
           | Some variantValues =>
               Obj.set variantKey
                 (Some (fold_left
                          (fun values '(valueKey, slots) =>
                             Obj.set valueKey (expandSlots slots utils) values)
                          variantValues []))
                 result
           end)
        variants []
  end.

(** [expandCompoundUtils(compoundVariants, utils)] *)
Definition expandCompoundUtils (compoundVariants : option (list CompoundVariant))
    (utils : UtilsConfig) : list CompoundVariant :=
  match compoundVariants with
  | None => []
  | Some compoundVariants =>
      map
        (fun cv =>
           let expandedCss :=
             match css cv with
             | Some css => expandSlots css utils
             | None => []
             end in
           {| css := Some expandedCss; conditions := conditions cv |})
        compoundVariants
  end.

(** What one entry of a style map contributes to its expansion: the macro's
    output when the key names a macro, the entry itself otherwise. *)
Definition contribution (utils : UtilsConfig) (entry : string * value) : Styles :=
  match Obj.get entry.1 utils with
  | Some utilFn => utilFn entry.2
  | None => [entry]
  end.

(** The keys of a style that the macro table does not bind are not names
    the table inherits. *)
Definition ownKeys (style : obj value) (utils : UtilsConfig) : Prop :=
  forall k, k ∈ Obj.keys style -> Obj.get k utils = None -> k ∉ objectPrototypeNames.

(** A slot to which neither the base, nor any variant label, nor any
    compound variant contributes a property. *)
Definition silentSlot (slot : string) (base : Base) (variants : Variants)
    (compoundVariants : list CompoundVariant) : Prop :=
  default [] (mjoin (Obj.get slot base)) = []
  /\ (forall axis labels label,
        (axis, Some labels) ∈ variants ->
        default [] (styleForValue labels label slot) = [])
  /\ (forall cv, cv ∈ compoundVariants -> default [] (cssFor cv slot) = []).

(** ** The store: caches and result objects *)

(** The object passed as [props.theme]: its identity and its properties. *)
Record ThemeOverride : Type := {
  theme_id : nat;
  theme_colors : obj value;
}.

(** [props : DefaultVariantsWithUtils<S, V, U> & { theme?: Record<string, string> }],
    already destructured as
    [const { theme: themeOverride, ...variantProps } = props]: an absent or
    [undefined] [theme] is [None], and [variantProps] has no [theme] key. *)
Record Props : Type := {
  theme : option ThemeOverride;
  variantProps : obj value;
}.

(** The destructuring itself (line 842), on the object a caller passes: the
    value under [theme], and the rest object [variantProps]. *)
Definition themeOf (props : option (obj value)) : value :=
  default VUndefined (Obj.get "theme" (default [] props)).

Definition restOf (props : option (obj value)) : obj value :=
  filter (fun kv => kv.1 <> "theme") (default [] props).

(** - [heap]: the result objects allocated so far; a reference is an index.
    - [primitiveCache], [styleCache]: the module-level caches (lines 36-37).
    - [instanceCache]: the [Map] of a [createNVA] instance (line 749), keyed
      by the identity of [configRef].
    - [themeOverrideCache]: the [WeakMap] of every [styled] call (line 836),
      keyed by the identity of [configRef] and of the override object.
    - [nextRef]: the identity the next [configRef] object receives. *)
Record Store : Type := {
  heap : list Result;
  primitiveCache : gmap string nat;
  styleCache : gmap nat (gmap string nat);
  instanceCache : gmap nat (gmap string nat);
  themeOverrideCache : gmap (nat * nat) (gmap string nat);
  nextRef : nat;
}.

Definition emptyStore : Store :=
  {| heap := []; primitiveCache := ∅; styleCache := ∅; instanceCache := ∅;
     themeOverrideCache := ∅; nextRef := 0 |}.

(** [clearStyleCache()] *)
Definition clearStyleCache (st : Store) : unit * Store :=
  (tt,
   {| heap := heap st; primitiveCache := ∅; styleCache := styleCache st;
      instanceCache := instanceCache st;
      themeOverrideCache := themeOverrideCache st; nextRef := nextRef st |}).

(** ** The standalone [styled] (lines 234-297) *)

Module standalone.

(** What the returned [computeStyles] closure captures. *)
Record Closure : Type := {
  s_base : Base;
  s_variants : Variants;
  s_defaultVariants : obj value;
  s_frozenSlots : list string;
  s_frozenCompoundVariants : list CompoundVariant;
  s_configRef : nat;
}.

Definition styled (config : Config) (st : Store) : Closure * Store :=
  ({| s_base := default [] (base config);
      s_variants := default [] (variants config);
      s_defaultVariants := default [] (defaultVariants config);
      s_frozenSlots := slots config;
      s_frozenCompoundVariants := default [] (compoundVariants config);
      s_configRef := nextRef st |},
   {| heap := heap st; primitiveCache := primitiveCache st;
      styleCache := styleCache st; instanceCache := instanceCache st;
      themeOverrideCache := themeOverrideCache st;
      nextRef := S (nextRef st) |}).

Definition computeStyles (d : Closure) (props : option (obj value)) (st : Store)
  : nat * Store :=
  let cacheKey := createCacheKey props in
  let configCache := styleCache st !! s_configRef d in
  match configCache ≫= (.!! cacheKey) with
  | Some cached => (cached, st)
  | None =>
      let resolvedProps := resolveProps (s_defaultVariants d) (default [] props) in
      let result :=
        computeAllSlots (s_frozenSlots d) (s_base d) (s_variants d)
          (s_frozenCompoundVariants d) resolvedProps in
      let ref := length (heap st) in
      (ref,
       {| heap := heap st ++ [result]; primitiveCache := primitiveCache st;
          styleCache :=
            <[s_configRef d := <[cacheKey := ref]> (default ∅ configCache)]>
              (styleCache st);
          instanceCache := instanceCache st;
          themeOverrideCache := themeOverrideCache st;
          nextRef := nextRef st |})
  end.

End standalone.

(** ** [createNVA] (lines 620-982) *)

(** The [defaultTokens] object (lines 303-328). *)
Record DefaultTokens : Type := {
  palette : obj value;
  spacing : obj value;
  fontSizes : obj value;
  radii : obj value;
  shadows : obj value;
  zIndex : obj value;
  opacity : obj value;
  lineHeights : obj value;
  fontWeights : obj value;
  letterSpacing : obj value;
  borderWidths : obj value;
  durations : obj value;
}.

(** The known token categories other than [colors], each with its default
    table (lines 725-735). *)
Definition tokenCategories (defaultTokens : DefaultTokens)
  : list (string * list (string * value)) :=
  [("spacing", spacing defaultTokens); ("fontSizes", fontSizes defaultTokens);
   ("radii", radii defaultTokens); ("shadows", shadows defaultTokens);
   ("zIndex", zIndex defaultTokens); ("opacity", opacity defaultTokens);
   ("lineHeights", lineHeights defaultTokens);
   ("fontWeights", fontWeights defaultTokens);
   ("letterSpacing", letterSpacing defaultTokens);
   ("borderWidths", borderWidths defaultTokens);
   ("durations", durations defaultTokens)].

(** The array literal of line 738. *)
Definition knownThemeKeys : list string :=
  ["colors"; "spacing"; "fontSizes"; "radii"; "shadows"; "zIndex"; "opacity";
   "lineHeights"; "fontWeights"; "letterSpacing"; "borderWidths"; "durations"].

(** [v.k] on a value that may be an object. *)
Definition prop (v : value) (k : string) : value :=
  match v with
  | VObj fields => default VUndefined (Obj.get k fields)
  | _ => VUndefined
  end.

(** [o?.[k]] on an optional object. *)
Definition optGet (o : option (obj value)) (k : string) : value :=
  default VUndefined (o ≫= Obj.get k).

(** [v ?? {}] *)
Definition orEmpty (v : value) : value :=
  if is_nullish v then VObj [] else v.

(** [ColorSchemeConfig] *)
Record ColorSchemeConfig : Type := {
  light : value;
  dark : value;
}.

(** The configuration a [styled] call receives: an object or a factory
    [(defineConfig, theme) => config]. *)
Abbreviation ConfigOrFactory :=
  (Config + ((Config -> Config) -> obj value -> Config))%type (only parsing).

(** What the [computeStyles] closure of a [styled] call captures. *)
Record Closure : Type := {
  configOrFactory : ConfigOrFactory;
  cl_base : Base;
  cl_variants : Variants;
  cl_defaultVariants : obj value;
  frozenSlots : list string;
  frozenCompoundVariants : list CompoundVariant;
  configRef : nat;
}.

(** [defineConfig = (config) => config] *)
Definition defineConfig (config : Config) : Config := config.

Section createNVA.
(** [defaultTokens] comes from [../tokens/default-tokens]; [inputTheme]
    and [inputUtils] are [options?.theme] and [options?.utils ?? {}]. *)
Variable defaultTokens : DefaultTokens.
Variable inputTheme : option (obj value).
Variable inputUtils : UtilsConfig.

(** [isStructuredColors(colors)] *)
Definition isStructuredColors (colors : value) : bool :=
  match colors with
  | VObj fields => Obj.has "light" fields
  | _ => false
  end.

(** [extractStandaloneColors(colors)] *)
Definition extractStandaloneColors (colors : value) : obj value :=
  match colors with
  | VObj fields =>
      fold_left
        (fun standalone '(key, v) =>
           if bool_decide (key <> "light") && bool_decide (key <> "dark") then
             match v with
             | VStr _ => Obj.set key v standalone
             | _ => standalone
             end
           else standalone)
        fields []
  | _ => []
  end.

(** The pair [(userColors, colorSchemeConfig)] of lines 654-682. *)
Definition userColorsAndScheme : value * ColorSchemeConfig :=
  let colors := optGet inputTheme "colors" in
  if truthy colors then
    if isStructuredColors colors then
      let standaloneColors := extractStandaloneColors colors in
      let lightColors := prop colors "light" in
      let darkColors := prop colors "dark" in
      (VObj (Obj.spread [spreadValue lightColors; standaloneColors]),
       {| light := VObj (Obj.spread [spreadValue lightColors; standaloneColors]);
          dark :=
            if truthy darkColors
            then VObj (Obj.spread [spreadValue darkColors; standaloneColors])
            else VUndefined |})
    else (colors, {| light := colors; dark := colors |})
  else (VObj [], {| light := VObj []; dark := VUndefined |}).

Definition colorScheme : ColorSchemeConfig := userColorsAndScheme.2.

Definition mergedColors : obj value :=
  Obj.spread [palette defaultTokens; spreadValue userColorsAndScheme.1].

(** [{ ...defaultTokens.k, ...(inputTheme?.k ?? {}) }] *)
Definition mergedTokens (defaults : obj value) (k : string) : value :=
  VObj (Obj.spread [defaults; spreadValue (orEmpty (optGet inputTheme k))]).

(** The [reduce] of lines 737-742. *)
Definition customTokens : obj value :=
  fold_left
    (fun acc key =>
       if bool_decide (key ∈ knownThemeKeys) then acc
       else Obj.set key (optGet inputTheme key) acc)
    (Obj.keys (default [] inputTheme)) [].

(** [resolvedTheme] (lines 723-743) *)
Definition resolvedTheme : obj value :=
  Obj.spread
    [ [ ("colors", VObj mergedColors);
        ("spacing", mergedTokens (spacing defaultTokens) "spacing");
        ("fontSizes", mergedTokens (fontSizes defaultTokens) "fontSizes");
        ("radii", mergedTokens (radii defaultTokens) "radii");
        ("shadows", mergedTokens (shadows defaultTokens) "shadows");
        ("zIndex", mergedTokens (zIndex defaultTokens) "zIndex");
        ("opacity", mergedTokens (opacity defaultTokens) "opacity");
        ("lineHeights", mergedTokens (lineHeights defaultTokens) "lineHeights");
        ("fontWeights", mergedTokens (fontWeights defaultTokens) "fontWeights");
        ("letterSpacing", mergedTokens (letterSpacing defaultTokens) "letterSpacing");
        ("borderWidths", mergedTokens (borderWidths defaultTokens) "borderWidths");
        ("durations", mergedTokens (durations defaultTokens) "durations") ];
      customTokens ].

(** [styled(configOrFactory)] (lines 793-836), up to the returned closure. *)
Definition styled (configOrFactory : ConfigOrFactory) (st : Store)
  : Closure * Store :=
  let configWithUtils :=
    match configOrFactory with
    | inr factory => factory defineConfig resolvedTheme
    | inl config => config
    end in
  let base := expandBaseUtils (base configWithUtils) inputUtils in
  let variants := expandVariantsUtils (variants configWithUtils) inputUtils in
  let compoundVariants :=
    expandCompoundUtils (compoundVariants configWithUtils) inputUtils in
  ({| configOrFactory := configOrFactory;
      cl_base := base;
      cl_variants := variants;
      cl_defaultVariants := default [] (defaultVariants configWithUtils);
      frozenSlots := slots configWithUtils;
      frozenCompoundVariants := compoundVariants;
      configRef := nextRef st |},
   {| heap := heap st; primitiveCache := primitiveCache st;
      styleCache := styleCache st; instanceCache := instanceCache st;
      themeOverrideCache := themeOverrideCache st;
      nextRef := S (nextRef st) |}).

(** [{ ...resolvedTheme, colors: themeOverride }] *)
Definition overriddenTheme (themeOverride : ThemeOverride) : obj value :=
  Obj.set "colors" (VObj (theme_colors themeOverride)) (Obj.spread [resolvedTheme]).

(** The result object of the theme-override branch (lines 855-899). *)
Definition themedResult (d : Closure)
    (factory : (Config -> Config) -> obj value -> Config)
    (themeOverride : ThemeOverride) (variantProps : obj value) : Result :=
  let recomputedConfig := factory defineConfig (overriddenTheme themeOverride) in
  let recomputedBase := expandBaseUtils (base recomputedConfig) inputUtils in
  let recomputedVariants :=
    expandVariantsUtils (variants recomputedConfig) inputUtils in
  let recomputedCompoundVariants :=
    expandCompoundUtils (compoundVariants recomputedConfig) inputUtils in
  let resolvedProps :=
    resolvePropsNoTheme (default [] (defaultVariants recomputedConfig))
      variantProps in
  computeAllSlots (frozenSlots d) recomputedBase recomputedVariants
    recomputedCompoundVariants resolvedProps.

(** The result object of the default branch (lines 920-946). *)
Definition defaultResult (d : Closure) (variantProps : obj value) : Result :=
  let resolvedProps := resolveProps (cl_defaultVariants d) variantProps in
  computeAllSlots (frozenSlots d) (cl_base d) (cl_variants d)
    (frozenCompoundVariants d) resolvedProps.

(** [computeStyles(props)] (lines 838-956): the reference of the returned
    object and the store after the call. *)
Definition computeStyles (d : Closure) (props : option Props) (st : Store)
  : nat * Store :=
  let themeOverride := props ≫= theme in
  let variantProps := default [] (variantProps <$> props) in
  let cacheKey := createCacheKey (Some variantProps) in
  match themeOverride, configOrFactory d with
  | Some themeOverride, inr factory =>
      let themeCache :=
        themeOverrideCache st !! (configRef d, theme_id themeOverride) in
      match themeCache ≫= (.!! cacheKey) with
      | Some cached => (cached, st)
      | None =>
          let result := themedResult d factory themeOverride variantProps in
          let ref := length (heap st) in
          (ref,
           {| heap := heap st ++ [result]; primitiveCache := primitiveCache st;
              styleCache := styleCache st; instanceCache := instanceCache st;
              themeOverrideCache :=
                <[(configRef d, theme_id themeOverride) :=
                    <[cacheKey := ref]> (default ∅ themeCache)]>
                  (themeOverrideCache st);
              nextRef := nextRef st |})
      end
  | _, _ =>
      let configCache := instanceCache st !! configRef d in
      match configCache ≫= (.!! cacheKey) with
      | Some cached => (cached, st)
      | None =>
          let result := defaultResult d variantProps in
          let ref := length (heap st) in
          (ref,
           {| heap := heap st ++ [result]; primitiveCache := primitiveCache st;
              styleCache := styleCache st;
              instanceCache :=
                <[configRef d := <[cacheKey := ref]> (default ∅ configCache)]>
                  (instanceCache st);
              themeOverrideCache := themeOverrideCache st;
              nextRef := nextRef st |})
      end
  end.

(** The cache entry a call consults: the partition of the override object
    in the theme-override branch, the partition of [configRef] otherwise. *)
Definition cacheLookup (d : Closure) (props : option Props) (st : Store)
  : option nat :=
  let cacheKey := createCacheKey (Some (default [] (variantProps <$> props))) in
  match props ≫= theme, configOrFactory d with
  | Some themeOverride, inr _ =>
      themeOverrideCache st !! (configRef d, theme_id themeOverride)
        ≫= (.!! cacheKey)
  | _, _ => instanceCache st !! configRef d ≫= (.!! cacheKey)
  end.

(** The uncached recomputation: what a call computes on a cache miss. *)
Definition recompute (d : Closure) (props : option Props) : Result :=
  let variantProps := default [] (variantProps <$> props) in
  match props ≫= theme, configOrFactory d with
  | Some themeOverride, inr factory =>
      themedResult d factory themeOverride variantProps
  | _, _ => defaultResult d variantProps
  end.

(** The expanded configurations a closure resolves against: the one of
    the [styled] call and, for a factory, the re-evaluations under an
    override. *)
Definition resolvesAgainst (d : Closure) (expandedBase : Base)
    (expandedVariants : Variants) (expandedCompounds : list CompoundVariant)
  : Prop :=
  (expandedBase = cl_base d /\ expandedVariants = cl_variants d
   /\ expandedCompounds = frozenCompoundVariants d)
  \/ exists factory themeOverride,
       configOrFactory d = inr factory
       /\ expandedBase
          = expandBaseUtils
              (base (factory defineConfig (overriddenTheme themeOverride)))
              inputUtils
       /\ expandedVariants
          = expandVariantsUtils
              (variants (factory defineConfig (overriddenTheme themeOverride)))
              inputUtils
       /\ expandedCompounds
          = expandCompoundUtils
              (compoundVariants
                 (factory defineConfig (overriddenTheme themeOverride)))
              inputUtils.

(** Every cache entry of the store holds the reference of a result some
    declaration of [ds] computed for props with that cache key, and the
    declarations have distinct [configRef] identities, all allocated. *)
Definition cacheInv (ds : list Closure) (st : Store) : Prop :=
  NoDup (configRef <$> ds)
  /\ (forall d, d ∈ ds -> configRef d < nextRef st)
  /\ (forall ref key r,
        instanceCache st !! ref ≫= (.!! key) = Some r ->
        exists d props,
          d ∈ ds /\ configRef d = ref
          /\ createCacheKey (Some (default [] (variantProps <$> props))) = key
          /\ heap st !! r = Some (recompute d props))
  /\ (forall ref themeId key r,
        themeOverrideCache st !! (ref, themeId) ≫= (.!! key) = Some r ->
        exists d props,
          d ∈ ds /\ configRef d = ref
          /\ createCacheKey (Some (default [] (variantProps <$> props))) = key
          /\ heap st !! r = Some (recompute d props)).

(** The stores an engine can be in: [reachable ds st] holds when [st]
    results from the empty store by [styled] declarations (collected in
    [ds]), [computeStyles] calls on them and [clearStyleCache] calls. *)
Inductive reachable : list Closure -> Store -> Prop :=
  | reach_init : reachable [] emptyStore
  | reach_styled ds st c :
      reachable ds st ->
      reachable (ds ++ [(styled c st).1]) (styled c st).2
  | reach_compute ds st d props :
      reachable ds st -> d ∈ ds ->
      reachable ds (computeStyles d props st).2
  | reach_clear ds st :
      reachable ds st ->
      reachable ds (clearStyleCache st).2.

End createNVA.

(** ** Observational equality of selections

    The axis-to-value pairs of a selection whose value is not [undefined]. *)
Definition definedPairs (props : obj value) : list (string * value) :=
  filter (fun kv => is_undefined kv.2 = false) props.

(** Two selections are observationally equal when they have the same set of
    defined pairs, whatever the key order and the [undefined] entries. *)
Definition sameSelections (props1 props2 : obj value) : Prop :=
  forall kv, kv ∈ definedPairs props1 <-> kv ∈ definedPairs props2.

(** The axes [createCacheKey] does not skip. *)
Definition definedKey (props : obj value) (k : string) : Prop :=
  is_undefined (default VUndefined (Obj.get k props)) = false.

#[global] Instance definedKey_dec props k : Decision (definedKey props k).
Proof. unfold definedKey. apply _. Defined.

(** Two values the engine cannot tell apart: both [undefined] or neither,
    and the same label after normalisation. *)
Definition normEq (v1 v2 : value) : Prop :=
  is_undefined v1 = is_undefined v2
  /\ normalizeVariantValue v1 = normalizeVariantValue v2.

(** Selections that agree up to [normEq], key by key and in the same order. *)
Definition normEqProps (props1 props2 : obj value) : Prop :=
  Forall2 (fun kv1 kv2 => kv1.1 = kv2.1 /\ normEq kv1.2 kv2.2) props1 props2.

(** Resolved selections with [normEq] values at every key. *)
Definition selEquiv (r1 r2 : obj value) : Prop :=
  forall k, option_Forall2 normEq (Obj.get k r1) (Obj.get k r2).

(** The cache key as the specification words it: the axis names with a
    defined value, sorted, each joined with its stringified value. *)
Definition entryString (props : obj value) (k : string) : string :=
  k +:+ ":" +:+ toString (default VUndefined (Obj.get k props)) +:+ ";".

Definition cacheKeySpec (props : obj value) : string :=
  let axes := merge_sort String.le (Obj.keys (definedPairs props)) in
  match axes with
  | [] => "{}"
  | _ => foldr (fun k rest => entryString props k +:+ rest) "" axes
  end.

(** ** Sample declarations

    The button of the package's example file, reduced: two slots, a [size]
    axis, a boolean [square] axis and one compound variant. *)

Definition buttonBase : Base :=
  [("root", Some [("padding", VNum 16); ("width", VNum 10)]);
   ("text", Some [("fontSize", VNum 14)])].

Definition buttonVariants : Variants :=
  [("size",
    Some [("sm", [("root", Some [("padding", VNum 8)])]);
          ("lg", [("root", Some [("padding", VNum 24)])])]);
   ("square",
    Some [("true", [("root", Some [("width", VNum 48); ("height", VNum 48)])])])].

Definition buttonCompounds : list CompoundVariant :=
  [{| css := Some [("root", Some [("width", VNum 64); ("height", VNum 64)])];
      conditions := [("size", VStr "lg"); ("square", VBool true)] |}].

Definition buttonConfig : Config :=
  {| slots := ["root"; "text"];
     base := Some buttonBase;
     variants := Some buttonVariants;
     defaultVariants := Some [("size", VStr "sm")];
     compoundVariants := Some buttonCompounds |}.

(** A small engine: a few default tokens, a theme with a custom token group
    and the padding and size macros of the example file. *)
Definition sampleTokens : DefaultTokens :=
  {| palette := [("blue500", VStr "#3b82f6")];
     spacing := [("4", VNum 16)];
     fontSizes := [("lg", VNum 18)];
     radii := []; shadows := []; zIndex := []; opacity := [];
     lineHeights := []; fontWeights := []; letterSpacing := [];
     borderWidths := []; durations := [] |}.

Definition sampleTheme : option (obj value) :=
  Some [("colors", VObj [("primary", VStr "#3b82f6")]);
        ("spacing", VObj [("md", VNum 16); ("4", VNum 18)]);
        ("breakpoints", VObj [("sm", VNum 640)])].

Definition sampleUtils : UtilsConfig :=
  [("px", fun v => [("paddingLeft", v); ("paddingRight", v)]);
   ("size", fun v => [("width", v); ("height", v)])].

(** [styled(buttonConfig)] in a fresh store. *)
Definition buttonDecl : Closure :=
  (styled sampleTokens sampleTheme sampleUtils (inl buttonConfig) emptyStore).1.

Definition buttonStore : Store :=
  (styled sampleTokens sampleTheme sampleUtils (inl buttonConfig) emptyStore).2.

(** A declaration made from a theme factory, reading [t.colors.primary]. *)
Definition badgeFactory (defineConfig : Config -> Config) (t : obj value) : Config :=
  defineConfig
    {| slots := ["root"];
       base := Some [("root", Some [("backgroundColor", prop (optGet (Some t) "colors") "primary");
                                    ("px", VNum 16)])];
       variants := Some [("tone", Some [("loud", [("root", Some [("size", VNum 64)])])])];
       defaultVariants := None;
       compoundVariants := None |}.

Definition badgeDecl : Closure :=
  (styled sampleTokens sampleTheme sampleUtils (inr badgeFactory) buttonStore).1.

Definition badgeStore : Store :=
  (styled sampleTokens sampleTheme sampleUtils (inr badgeFactory) buttonStore).2.

(** A declaration whose [size] axis has a label containing the separators
    of the cache key. *)
Definition collidingConfig : Config :=
  {| slots := ["root"];
     base := None;
     variants :=
       Some [("size",
              Some [("sm", [("root", Some [("padding", VNum 8)])]);
                    ("sm;tone:dark", [("root", Some [("padding", VNum 99)])])]);
             ("tone",
              Some [("dark", [("root", Some [("color", VStr "black")])])])];
     defaultVariants := None;
     compoundVariants := None |}.

Definition collidingDecl : Closure :=
  (styled sampleTokens sampleTheme sampleUtils (inl collidingConfig) emptyStore).1.

Definition collidingStore : Store :=
  (styled sampleTokens sampleTheme sampleUtils (inl collidingConfig) emptyStore).2.

(** A declaration with an axis named [theme]. *)
Definition themeAxisConfig : Config :=
  {| slots := ["root"];
     base := None;
     variants :=
       Some [("theme",
              Some [("light", [("root", Some [("color", VStr "black")])]);
                    ("dark", [("root", Some [("color", VStr "white")])])])];
     defaultVariants := Some [("theme", VStr "light")];
     compoundVariants := None |}.

Definition themeAxisDecl : Closure :=
  (styled sampleTokens sampleTheme sampleUtils (inl themeAxisConfig) emptyStore).1.

Definition themeAxisStore : Store :=
  (styled sampleTokens sampleTheme sampleUtils (inl themeAxisConfig) emptyStore).2.

(** Two override objects with the same contents. *)
Definition redTheme1 : ThemeOverride :=
  {| theme_id := 1; theme_colors := [("primary", VStr "#f00")] |}.

Definition redTheme2 : ThemeOverride :=
  {| theme_id := 2; theme_colors := [("primary", VStr "#f00")] |}.

(** ** Well-formed configurations

    A configuration written as JavaScript object literals: every table and
    every style map in it has pairwise distinct keys. *)

Definition wfOpt {A} (P : A -> Prop) (o : option A) : Prop :=
  match o with Some x => P x | None => True end.

#[global] Instance wfOpt_dec {A} (P : A -> Prop) `{forall x, Decision (P x)}
  (o : option A) : Decision (wfOpt P o).
Proof. destruct o; simpl; apply _. Defined.

Definition wfSlots (o : Base) : Prop :=
  Obj.wf o /\ Forall (fun entry => wfOpt Obj.wf entry.2) o.

Definition wfLabels (labels : obj Base) : Prop :=
  Obj.wf labels /\ Forall (fun entry => wfSlots entry.2) labels.

Definition wfVariants (variants : Variants) : Prop :=
  Obj.wf variants /\ Forall (fun entry => wfOpt wfLabels entry.2) variants.

Definition wfCompounds (compoundVariants : list CompoundVariant) : Prop :=
  Forall (fun cv => wfOpt wfSlots (css cv)) compoundVariants.

Definition wfConfig (config : Config) : Prop :=
  wfOpt wfSlots (base config)
  /\ wfOpt wfVariants (variants config)
  /\ wfOpt wfCompounds (compoundVariants config).

#[global] Instance wfSlots_dec o : Decision (wfSlots o).
Proof. unfold wfSlots. apply _. Defined.

#[global] Instance wfLabels_dec labels : Decision (wfLabels labels).
Proof. unfold wfLabels. apply _. Defined.

#[global] Instance wfVariants_dec variants : Decision (wfVariants variants).
Proof. unfold wfVariants. apply _. Defined.

#[global] Instance wfCompounds_dec cvs : Decision (wfCompounds cvs).
Proof. unfold wfCompounds. apply _. Defined.

#[global] Instance wfConfig_dec config : Decision (wfConfig config).
Proof. unfold wfConfig. apply _. Defined.

(** The style maps a slot draws from a configuration for given selections:
    the base style, then the matching axis styles, then the matching
    compound styles. *)
Definition slotSources (slot : string) (config : Config) (selections : obj value)
  : list (list (string * value)) :=
  default [] (mjoin (Obj.get slot (default [] (base config))))
    :: matchingVariantStyles slot (default [] (variants config)) selections
    ++ matchingCompoundStyles slot (default [] (compoundVariants config)) selections.

(** The style maps bound in a slot table, and those written anywhere in
    a configuration. *)
Definition slotStylesOf (o : obj (option (obj value))) : list (obj value) :=
  omap snd o.

Definition stylesOf (config : Config) : list (obj value) :=
  slotStylesOf (default [] (base config))
  ++ (omap snd (default [] (variants config))
        ≫= fun labels => labels.*2 ≫= slotStylesOf)
  ++ (default [] (compoundVariants config)
        ≫= fun cv => slotStylesOf (default [] (css cv))).

(** A configuration none of whose style maps has a property named like a
    property of [Object.prototype]. *)
Definition ownStyleNames (config : Config) : Prop :=
  Forall (fun style => Forall (fun k => k ∉ objectPrototypeNames) (Obj.keys style))
         (stylesOf config).

#[global] Instance ownStyleNames_dec config : Decision (ownStyleNames config).
Proof. unfold ownStyleNames. apply _. Defined.

(** ** Sequences of calls *)

(** The operations of the module and of one [createNVA] instance. *)
Inductive Op : Type :=
  | OpStyled (configOrFactory : ConfigOrFactory)
  | OpCompute (d : Closure) (props : option Props)
  | OpClear
  | OpStandaloneStyled (config : Config)
  | OpStandaloneCompute (d : standalone.Closure) (props : option (list (string * value))).

Section createNVA_ops.
Variable defaultTokens : DefaultTokens.
Variable inputTheme : option (obj value).
Variable inputUtils : UtilsConfig.

(** The store after one operation. *)
Definition runOp (st : Store) (op : Op) : Store :=
  match op with
  | OpStyled c => (styled defaultTokens inputTheme inputUtils c st).2
  | OpCompute d props =>
      (computeStyles defaultTokens inputTheme inputUtils d props st).2
  | OpClear => (clearStyleCache st).2
  | OpStandaloneStyled config => (standalone.styled config st).2
  | OpStandaloneCompute d props => (standalone.computeStyles d props st).2
  end.

Definition runOps (ops : list Op) (st : Store) : Store := fold_left runOp ops st.

End createNVA_ops.

(** ** The theme provider ([src/provider/theme-provider.tsx])

    The pure computations of [ThemeProvider]: [resolveColorScheme], the
    mode [toggle] passes to [setTheme], and the context value. *)

(** [ColorScheme = "light" | "dark"] *)
Inductive ColorScheme : Type := SchemeLight | SchemeDark.

#[global] Instance ColorScheme_eq_dec : EqDecision ColorScheme.
Proof. solve_decision. Defined.

(** [ThemeMode = ColorScheme | "system"] *)
Inductive ThemeMode : Type :=
  | Mode (scheme : ColorScheme)
  | ModeSystem.

(** [resolveColorScheme(mode, systemScheme)]; a [systemScheme] of [null] or
    [undefined] is [None]. *)
Definition resolveColorScheme (mode : ThemeMode) (systemScheme : option ColorScheme)
  : ColorScheme :=
  match mode with
  | ModeSystem =>
      match systemScheme with
      | Some SchemeDark => SchemeDark
      | _ => SchemeLight
      end
  | Mode scheme => scheme
  end.

(** The [newMode] that [toggle] hands to [setTheme] (lines 224-228). *)
Definition toggleMode (mode : ThemeMode) (systemScheme : option ColorScheme)
  : ThemeMode :=
  let currentScheme := resolveColorScheme mode systemScheme in
  Mode (match currentScheme with
        | SchemeLight => SchemeDark
        | SchemeDark => SchemeLight
        end).

(** The data fields of [ThemeContextValue]. *)
Record ThemeContextValue : Type := {
  ctx_theme : ThemeMode;
  ctx_isDark : bool;
  ctx_colors : value;
}.

(** The body of the [useMemo] computing the context value (lines 231-244);
    [colors] is the [colors] prop. *)
Definition contextValue (mode : ThemeMode) (systemScheme : option ColorScheme)
    (colors : value) : ThemeContextValue :=
  let colorScheme := resolveColorScheme mode systemScheme in
  let isDark := match colorScheme with SchemeDark => true | SchemeLight => false end in
  let currentColors :=
    if isDark && truthy (prop colors "dark")
    then prop colors "dark"
    else prop colors "default" in
  {| ctx_theme := mode; ctx_isDark := isDark; ctx_colors := currentColors |}.

(** The object [createNVA] returns as [colorScheme]: the literal
    [{ light: ..., dark: ... }] of lines 662-681. *)
Definition colorSchemeObject (cs : ColorSchemeConfig) : value :=
  VObj [("light", light cs); ("dark", dark cs)].

(** A theme with structured colors: a light and a dark map and one
    standalone color. *)
Definition schemeTheme : option (obj value) :=
  Some [("colors",
         VObj [("light", VObj [("background", VStr "#fff"); ("brand", VStr "#00f")]);
               ("dark", VObj [("background", VStr "#000")]);
               ("brand", VStr "#f0f")])].

(** An override object carrying the colors the sample engine resolved. *)
Definition ownColors : ThemeOverride :=
  {| theme_id := 3; theme_colors := mergedColors sampleTokens sampleTheme |}.

(** * Properties *)

(** ** Ordered objects *)

Section obj_facts.
Context {A : Type}.
Implicit Types (o a b c : obj A) (k : string) (v : A).

Lemma obj_get_None k o : k ∉ Obj.keys o -> Obj.get k o = None.
Proof.
  induction o as [|[k' v'] o IH]; simpl; [done|].
  intros Hk. apply not_elem_of_cons in Hk as [Hne Hk].
  rewrite decide_False by done. by apply IH.
Qed.

Lemma obj_get_Some_keys k v o : Obj.get k o = Some v -> k ∈ Obj.keys o.
Proof.
  induction o as [|[k' v'] o IH]; simpl; [done|].
  case_decide; subst; [left|right; auto].
Qed.

Lemma obj_get_is_Some k o : k ∈ Obj.keys o -> is_Some (Obj.get k o).
Proof.
  induction o as [|[k' v'] o IH]; simpl; [by intros ?%elem_of_nil|].
  intros Hk. case_decide; [eauto|].
  apply elem_of_cons in Hk as [?|?]; [done|auto].
Qed.

Lemma obj_get_elem_of k v o : Obj.get k o = Some v -> (k, v) ∈ o.
Proof.
  induction o as [|[k' v'] o IH]; simpl; [done|].
  case_decide; [intros [= ->]; subst; left|right; auto].
Qed.

Lemma obj_elem_of_get k v o : Obj.wf o -> (k, v) ∈ o -> Obj.get k o = Some v.
Proof.
  unfold Obj.wf, Obj.keys.
  induction o as [|[k' v'] o IH]; simpl; [by intros _ ?%elem_of_nil|].
  intros [Hk' Hnd]%NoDup_cons [[= -> ->]|Hin]%elem_of_cons.
  - by rewrite decide_True.
  - rewrite decide_False; [by apply IH|].
    intros ->. apply Hk'. by apply (list_elem_of_fmap_2 fst _ (k', v) Hin).
Qed.

Lemma obj_get_set k k' v o :
  Obj.get k' (Obj.set k v o) = if decide (k' = k) then Some v else Obj.get k' o.
Proof.
  induction o as [|[k0 v0] o IH]; simpl.
  - by repeat case_decide.
  - destruct (decide (k = k0)) as [->|?]; simpl; [|rewrite IH];
      repeat case_decide; congruence.
Qed.

Lemma obj_keys_set k v o :
  Obj.keys (Obj.set k v o)
  = if decide (k ∈ Obj.keys o) then Obj.keys o else Obj.keys o ++ [k].
Proof.
  induction o as [|[k0 v0] o IH]; simpl.
  - done.
  - destruct (decide (k = k0)) as [->|Hne]; simpl.
    + rewrite decide_True; [done|left].
    + rewrite IH. case_decide.
      * rewrite decide_True; [done|by right].
      * rewrite decide_False; [done|]. by intros [?|?]%elem_of_cons.
Qed.

Lemma obj_keys_assign a b :
  Obj.keys (Obj.assign a b) = Obj.extend (Obj.keys a) (Obj.keys b).
Proof.
  unfold Obj.assign, Obj.extend. revert a.
  induction b as [|[k v] b IH]; intros a; simpl; [done|].
  rewrite IH. f_equal. apply obj_keys_set.
Qed.

Lemma obj_extend_NoDup (acc ks : list string) :
  NoDup acc -> NoDup (Obj.extend acc ks).
Proof.
  unfold Obj.extend. revert acc.
  induction ks as [|k ks IH]; intros acc Hacc; simpl; [done|].
  apply IH. case_decide; [done|].
  apply NoDup_app. split_and!; [done| |apply NoDup_singleton].
  intros x Hx ->%list_elem_of_singleton. done.
Qed.

Lemma obj_extend_snoc (acc ks : list string) k :
  Obj.extend acc (ks ++ [k])
  = if decide (k ∈ Obj.extend acc ks) then Obj.extend acc ks
    else Obj.extend acc ks ++ [k].
Proof. unfold Obj.extend. by rewrite fold_left_app. Qed.

Lemma obj_elem_of_extend (acc ks : list string) k :
  k ∈ Obj.extend acc ks <-> k ∈ acc \/ k ∈ ks.
Proof.
  induction ks as [|k' ks IH] using rev_ind.
  - simpl. split; [auto|]. by intros [?|?%elem_of_nil].
  - rewrite obj_extend_snoc. case_decide as Hk'.
    + rewrite IH, elem_of_app, list_elem_of_singleton.
      split; [tauto|]. intros [?|[?| ->]]; [tauto..|]. by apply IH.
    + rewrite !elem_of_app, IH, list_elem_of_singleton. tauto.
Qed.

Lemma obj_extend_assoc (a b c : list string) :
  Obj.extend a (Obj.extend b c) = Obj.extend (Obj.extend a b) c.
Proof.
  induction c as [|k c IH] using rev_ind; [done|].
  rewrite !obj_extend_snoc. case_decide as Hk.
  - rewrite IH, decide_True; [done|].
    rewrite <-IH. apply obj_elem_of_extend. by right.
  - rewrite obj_extend_snoc, IH. done.
Qed.

Lemma obj_extend_nil (ks : list string) : NoDup ks -> Obj.extend [] ks = ks.
Proof.
  induction ks as [|k ks IH] using rev_ind; [done|].
  intros [Hks [Hk _]]%NoDup_app. rewrite obj_extend_snoc, IH by done.
  rewrite decide_False; [done|]. intros Hin. apply (Hk k); [done|left].
Qed.

Lemma obj_wf_set k v o : Obj.wf o -> Obj.wf (Obj.set k v o).
Proof.
  unfold Obj.wf. rewrite obj_keys_set. intros Ho. case_decide; [done|].
  apply NoDup_app. split_and!; [done| |apply NoDup_singleton].
  by intros x Hx ->%list_elem_of_singleton.
Qed.

Lemma obj_wf_assign a b : Obj.wf a -> Obj.wf (Obj.assign a b).
Proof. unfold Obj.wf. rewrite obj_keys_assign. apply obj_extend_NoDup. Qed.

Lemma obj_wf_spread (parts : list (obj A)) : Obj.wf (Obj.spread parts).
Proof.
  unfold Obj.spread.
  assert (Hnil : Obj.wf (@nil (string * A))) by apply NoDup_nil_2.
  revert Hnil. generalize (@nil (string * A)).
  induction parts as [|p parts IH]; intros acc Hacc; simpl; [done|].
  by apply IH, obj_wf_assign.
Qed.

(** Two objects with the same keys in the same order and the same value
    at every key are equal. *)
Lemma obj_ext a b :
  Obj.wf a -> Obj.keys a = Obj.keys b ->
  (forall k, Obj.get k a = Obj.get k b) -> a = b.
Proof.
  unfold Obj.wf, Obj.keys. revert b.
  induction a as [|[k v] a IH]; intros [|[k' v'] b]; simpl; try done.
  intros [Hk Hnd]%NoDup_cons [= <- Hkeys] Hget. f_equal.
  - specialize (Hget k). simpl in Hget. rewrite !decide_True in Hget by done.
    congruence.
  - apply IH; [done..|]. intros k0. specialize (Hget k0). simpl in Hget.
    case_decide; [subst|done].
    rewrite (obj_get_None k a) by done.
    rewrite (obj_get_None k b); [done|]. by rewrite Hkeys in Hk.
Qed.

Lemma obj_get_assign k a b :
  Obj.wf b ->
  Obj.get k (Obj.assign a b)
  = match Obj.get k b with Some v => Some v | None => Obj.get k a end.
Proof.
  unfold Obj.assign, Obj.wf, Obj.keys. revert a.
  induction b as [|[k' v'] b IH]; intros a; simpl; [done|].
  intros [Hk' Hnd]%NoDup_cons. rewrite IH by done.
  rewrite obj_get_set. case_decide; subst.
  - rewrite obj_get_None; done.
  - done.
Qed.

Lemma obj_assign_nil a : Obj.wf a -> Obj.assign [] a = a.
Proof.
  intros Ha. symmetry. apply obj_ext; [done| |].
  - rewrite obj_keys_assign. simpl. by rewrite obj_extend_nil.
  - intros k. rewrite obj_get_assign by done. by destruct (Obj.get k a).
Qed.

Lemma obj_assign_nil_r a : Obj.assign a [] = a.
Proof. done. Qed.

Lemma obj_assign_snoc a c k v :
  Obj.assign a (c ++ [(k, v)]) = Obj.set k v (Obj.assign a c).
Proof. unfold Obj.assign. by rewrite fold_left_app. Qed.

Lemma obj_assign_set a b k v :
  Obj.wf a -> Obj.wf b ->
  Obj.assign a (Obj.set k v b) = Obj.set k v (Obj.assign a b).
Proof.
  intros Ha Hb. apply obj_ext.
  - by apply obj_wf_assign.
  - rewrite obj_keys_assign, !obj_keys_set, obj_keys_assign.
    case_decide as Hk.
    + rewrite decide_True; [done|]. apply obj_elem_of_extend. by right.
    + by rewrite obj_extend_snoc.
  - intros k0. rewrite obj_get_assign by by apply obj_wf_set.
    rewrite !obj_get_set, obj_get_assign by done. by case_decide.
Qed.

(** Shallow merge is associative once the middle object is well formed. *)
Lemma obj_assign_assoc a b c :
  Obj.wf a -> Obj.wf b ->
  Obj.assign a (Obj.assign b c) = Obj.assign (Obj.assign a b) c.
Proof.
  intros Ha Hb. induction c as [|[k v] c IH] using rev_ind; [done|].
  rewrite !obj_assign_snoc, <-IH.
  apply obj_assign_set; [done|by apply obj_wf_assign].
Qed.

Lemma obj_spread_cons a (parts : list (obj A)) :
  Obj.spread (a :: parts) = fold_left Obj.assign parts (Obj.assign [] a).
Proof. done. Qed.

Lemma obj_fold_assign_wf (parts : list (obj A)) a :
  Obj.wf a -> Obj.wf (fold_left Obj.assign parts a).
Proof.
  revert a. induction parts as [|p parts IH]; intros a Ha; simpl; [done|].
  by apply IH, obj_wf_assign.
Qed.

(** Merging a merged sequence is merging the sequence. *)
Lemma obj_assign_fold a b (parts : list (obj A)) :
  Obj.wf a -> Obj.wf b ->
  Obj.assign a (fold_left Obj.assign parts b)
  = fold_left Obj.assign parts (Obj.assign a b).
Proof.
  intros Ha. revert b. induction parts as [|p parts IH] using rev_ind;
    intros b Hb; [done|].
  rewrite !fold_left_app. simpl.
  rewrite obj_assign_assoc; [|done|by apply obj_fold_assign_wf].
  by rewrite IH.
Qed.

Lemma obj_get_fold_assign k (parts : list (obj A)) a :
  Forall Obj.wf parts ->
  Obj.get k (fold_left Obj.assign parts a)
  = match Obj.lastDefined k parts with
    | Some v => Some v
    | None => Obj.get k a
    end.
Proof.
  unfold Obj.lastDefined.
  induction parts as [|p parts IH] using rev_ind; intros Hwf; [done|].
  apply Forall_app in Hwf as [Hparts [Hp _]%Forall_cons].
  rewrite !fold_left_app. simpl. rewrite obj_get_assign by done.
  destruct (Obj.get k p); [done|]. by apply IH.
Qed.

Lemma obj_lastDefined_snoc k (parts : list (obj A)) p :
  Obj.lastDefined k (parts ++ [p])
  = match Obj.get k p with
    | Some v => Some v
    | None => Obj.lastDefined k parts
    end.
Proof. unfold Obj.lastDefined. by rewrite fold_left_app. Qed.

Lemma obj_lastDefined_app k (l1 l2 : list (obj A)) :
  Obj.lastDefined k (l1 ++ l2)
  = match Obj.lastDefined k l2 with
    | Some v => Some v
    | None => Obj.lastDefined k l1
    end.
Proof.
  induction l2 as [|p l2 IH] using rev_ind.
  - by rewrite app_nil_r.
  - rewrite app_assoc, !obj_lastDefined_snoc, IH. by destruct (Obj.get k p).
Qed.
End obj_facts.

(** ** The variant resolver *)

Lemma obj_spread_pair {A} (a b : obj A) :
  Obj.wf a -> Obj.spread [a; b] = Obj.assign a b.
Proof. intros Ha. unfold Obj.spread. simpl. by rewrite obj_assign_nil. Qed.

Lemma applyVariant_fold slot variants props acc :
  Obj.wf acc ->
  fold_left
    (fun style '(variantKey, variantConfig) =>
       match Obj.get variantKey props with
       | None => style
       | Some value =>
           if is_undefined value then style else
           match variantConfig with
           | None => style
           | Some variantConfig =>
               match styleForValue variantConfig (normalizeVariantValue value) slot with
               | Some styleForValue => Obj.spread [style; styleForValue]
               | None => style
               end
           end
       end)
    variants acc
  = fold_left Obj.assign (matchingVariantStyles slot variants props) acc.
Proof.
  unfold matchingVariantStyles. revert acc.
  induction variants as [|[axis labels] variants IH]; intros acc Hacc; [done|].
  simpl. destruct (Obj.get axis props) as [selected|]; simpl; [|by apply IH].
  destruct (is_undefined selected); [by apply IH|].
  destruct labels as [labels|]; simpl; [|by apply IH].
  destruct (styleForValue labels _ slot) as [st|]; simpl; [|by apply IH].
  rewrite obj_spread_pair by done. by apply IH, obj_wf_assign.
Qed.

Lemma applyVariant_matching slot variants props :
  applyVariant slot variants props
  = fold_left Obj.assign (matchingVariantStyles slot variants props) [].
Proof. apply applyVariant_fold, NoDup_nil_2. Qed.

Lemma applyCompound_fold slot compoundVariants props acc :
  Obj.wf acc ->
  fold_left
    (fun style cv =>
       if isMatch (conditions cv) props then
         match cssFor cv slot with
         | Some cssSlot => Obj.spread [style; cssSlot]
         | None => style
         end
       else style)
    compoundVariants acc
  = fold_left Obj.assign (matchingCompoundStyles slot compoundVariants props) acc.
Proof.
  unfold matchingCompoundStyles. revert acc.
  induction compoundVariants as [|cv cvs IH]; intros acc Hacc; [done|].
  simpl. destruct (isMatch (conditions cv) props); [|by apply IH].
  destruct (cssFor cv slot) as [st|]; simpl; [|by apply IH].
  rewrite obj_spread_pair by done. by apply IH, obj_wf_assign.
Qed.

Lemma applyCompound_matching slot compoundVariants props :
  applyCompound slot compoundVariants props
  = fold_left Obj.assign (matchingCompoundStyles slot compoundVariants props) [].
Proof. apply applyCompound_fold, NoDup_nil_2. Qed.

(** The three-way spread of [computeSlotStyles] is one left-to-right merge
    of the base style, the matching axis styles and the matching compound
    styles. *)
Lemma computeSlotStyles_spread slot base variants compoundVariants props :
  computeSlotStyles slot base variants compoundVariants props
  = Obj.spread
      (default [] (mjoin (Obj.get slot base))
         :: matchingVariantStyles slot variants props
         ++ matchingCompoundStyles slot compoundVariants props).
Proof.
  unfold computeSlotStyles.
  rewrite applyVariant_matching, applyCompound_matching.
  rewrite !obj_spread_cons, fold_left_app. simpl.
  set (b := Obj.assign [] _).
  assert (Hb : Obj.wf b) by apply obj_wf_assign, NoDup_nil_2.
  rewrite (obj_assign_fold b []) by (done || apply NoDup_nil_2).
  rewrite obj_assign_nil_r.
  rewrite (obj_assign_fold _ []);
    [done|by apply obj_fold_assign_wf|apply NoDup_nil_2].
Qed.

Lemma normalizeVariantValue_labelSpec v : normalizeVariantValue v = labelSpec v.
Proof. by destruct v as [| |[]| | |]. Qed.

Lemma matchingVariantStyles_spec slot variants selections :
  matchingVariantStyles slot variants selections
  = axisStylesSpec slot variants selections.
Proof.
  unfold matchingVariantStyles, axisStylesSpec.
  induction variants as [|[axis labels] variants IH]; [done|].
  cbn [omap list_omap]. rewrite IH. f_equal.
  unfold axisStyleSpec, styleForValue, slotStyleOf. simpl.
  destruct (Obj.get axis selections) as [selected|]; simpl; [|done].
  destruct (is_undefined selected); [by destruct labels|].
  destruct labels as [labels|]; simpl; [|done].
  rewrite normalizeVariantValue_labelSpec.
  destruct (Obj.get (labelSpec selected) labels) as [table|]; [|done].
  by destruct (Obj.get slot table) as [[style|]|].
Qed.

Lemma isMatch_spec conds selections :
  "css" ∉ Obj.keys conds ->
  isMatch conds selections = forallb (conditionMatches selections) conds.
Proof.
  unfold isMatch. induction conds as [|[condKey condValue] conds IH]; [done|].
  intros [Hcss Hconds]%not_elem_of_cons. simpl. rewrite IH by done.
  rewrite decide_False by done. unfold conditionMatches. simpl.
  by rewrite !normalizeVariantValue_labelSpec.
Qed.

Lemma matchingCompoundStyles_spec slot compoundVariants selections :
  Forall (fun cv => "css" ∉ Obj.keys (conditions cv)) compoundVariants ->
  matchingCompoundStyles slot compoundVariants selections
  = compoundStylesSpec slot compoundVariants selections.
Proof.
  unfold matchingCompoundStyles, compoundStylesSpec.
  induction 1 as [|cv cvs Hcv _ IH]; [done|].
  cbn [omap list_omap]. rewrite IH. f_equal.
  unfold compoundStyleSpec, cssFor, slotStyleOf. rewrite isMatch_spec by done.
  destruct (forallb _ _); [|done]. destruct (css cv) as [table|]; [|done].
  by destruct (Obj.get slot table) as [[style|]|].
Qed.

Lemma baseStyleSpec_get slot base :
  default [] (mjoin (Obj.get slot base)) = baseStyleSpec slot base.
Proof.
  unfold baseStyleSpec, slotStyleOf. by destruct (Obj.get slot base) as [[style|]|].
Qed.



(** ** Cache keys *)

Lemma string_app_nil_r (s : string) : s +:+ "" = s.
Proof.
  induction s as [|c s IH]; [done|].
  change (String c (s +:+ "") = String c s). by rewrite IH.
Qed.

Lemma string_app_assoc (a b c : string) : (a +:+ b) +:+ c = a +:+ b +:+ c.
Proof.
  induction a as [|x a IH]; [done|].
  change (String x ((a +:+ b) +:+ c) = String x (a +:+ b +:+ c)). by rewrite IH.
Qed.

Lemma string_app_nil_inv (a b : string) : a +:+ b = "" -> a = "" /\ b = "".
Proof. destruct a; [done|]. intros H. discriminate H. Qed.

Lemma entryString_nonempty props k : entryString props k <> "".
Proof.
  unfold entryString. intros [_ H]%string_app_nil_inv. discriminate.
Qed.

Lemma StronglySorted_filter {A} (R : relation A) (P : A -> Prop)
    `{forall x, Decision (P x)} (l : list A) :
  StronglySorted R l -> StronglySorted R (filter P l).
Proof.
  induction 1 as [|x l Hl IH Hx]; [constructor|].
  rewrite filter_cons. case_decide; [|done].
  constructor; [done|]. rewrite Forall_forall in Hx |- *.
  intros y [_ Hy]%list_elem_of_filter. by apply Hx.
Qed.

Lemma createCacheKey_fold props (ks : list string) (acc : string) :
  fold_left
    (fun key k =>
       let v := default VUndefined (Obj.get k props) in
       if is_undefined v then key
       else key +:+ k +:+ ":" +:+ toString v +:+ ";")
    ks acc
  = acc +:+ foldr (fun k rest => entryString props k +:+ rest) ""
                  (filter (definedKey props) ks).
Proof.
  revert acc. induction ks as [|k ks IH]; intros acc; simpl.
  - by rewrite string_app_nil_r.
  - rewrite IH, filter_cons.
    destruct (decide (definedKey props k)) as [Hd|Hd]; unfold definedKey in Hd.
    + rewrite Hd. simpl. unfold entryString at 2.
      by rewrite !string_app_assoc.
    + apply not_false_is_true in Hd. by rewrite Hd.
Qed.

Lemma filter_ext_elem_of {A} (P Q : A -> Prop) `{forall x, Decision (P x)}
    `{forall x, Decision (Q x)} (l : list A) :
  (forall x, x ∈ l -> P x <-> Q x) -> filter P l = filter Q l.
Proof.
  induction l as [|x l IH]; intros HPQ; [done|].
  rewrite !filter_cons. rewrite IH; [|intros y Hy; apply HPQ; right; exact Hy].
  destruct (decide (P x)) as [HP|HP], (decide (Q x)) as [HQ|HQ]; [done| | |done].
  - exfalso. apply HQ, (HPQ x); [left|done].
  - exfalso. apply HP, (HPQ x); [left|done].
Qed.

Lemma keys_definedPairs props :
  Obj.wf props ->
  Obj.keys (definedPairs props) = filter (definedKey props) (Obj.keys props).
Proof.
  unfold definedPairs, Obj.wf, Obj.keys.
  induction props as [|[k v] props IH]; [done|].
  intros Hwf. change (NoDup (k :: props.*1)) in Hwf.
  apply NoDup_cons in Hwf as [Hk Hnd].
  rewrite fmap_cons, !filter_cons. simpl.
  assert (Htail : filter (definedKey ((k, v) :: props)) props.*1
                  = filter (definedKey props) props.*1).
  { apply filter_ext_elem_of. intros k' Hk'. unfold definedKey. simpl.
    rewrite decide_False; [done|]. by intros ->. }
  assert (Hhead : definedKey ((k, v) :: props) k <-> is_undefined v = false).
  { unfold definedKey. simpl. by rewrite decide_True. }
  rewrite Htail, <-IH by done.
  destruct (decide (is_undefined v = false)) as [Hv|Hv],
    (decide (definedKey ((k, v) :: props) k)) as [Hd|Hd]; [done| | |done].
  - exfalso. by apply Hd, Hhead.
  - exfalso. by apply Hv, Hhead.
Qed.

Lemma definedPairs_wf props : Obj.wf props -> Obj.wf (definedPairs props).
Proof.
  intros Hwf. unfold Obj.wf. rewrite keys_definedPairs by done.
  by apply NoDup_filter.
Qed.

(** [createCacheKey] computes the key the specification describes. *)
Lemma createCacheKey_spec props :
  Obj.wf props -> createCacheKey (Some props) = cacheKeySpec props.
Proof.
  intros Hwf. unfold createCacheKey, cacheKeySpec.
  assert (Hsorted :
    filter (definedKey props) (merge_sort String.le (Obj.keys props))
    = merge_sort String.le (Obj.keys (definedPairs props))).
  { apply (StronglySorted_unique String.le).
    - apply StronglySorted_filter, StronglySorted_merge_sort; apply _.
    - apply StronglySorted_merge_sort; apply _.
    - rewrite !merge_sort_Permutation, keys_definedPairs by done. done. }
  case_decide as Hlen.
  - apply nil_length_inv in Hlen. destruct props; [done|discriminate].
  - rewrite createCacheKey_fold, Hsorted. simpl.
    destruct (merge_sort String.le (Obj.keys (definedPairs props))) as [|k ks];
      simpl; [done|].
    rewrite decide_False; [done|].
    intros [_ [H _]%string_app_nil_inv]%string_app_nil_inv.
    by apply entryString_nonempty in H.
Qed.

Lemma definedPairs_get props k v :
  Obj.wf props ->
  (k, v) ∈ definedPairs props <-> Obj.get k props = Some v /\ is_undefined v = false.
Proof.
  intros Hwf. unfold definedPairs. rewrite list_elem_of_filter. simpl. split.
  - intros [Hv Hin]. split; [by apply obj_elem_of_get|done].
  - intros [Hget Hv]. split; [done|by apply obj_get_elem_of].
Qed.

Lemma sameSelections_get props1 props2 k :
  Obj.wf props1 -> Obj.wf props2 -> sameSelections props1 props2 ->
  k ∈ Obj.keys (definedPairs props1) ->
  Obj.get k props1 = Obj.get k props2.
Proof.
  intros Hwf1 Hwf2 Hsame Hk.
  apply obj_get_is_Some in Hk as [v Hv].
  apply obj_get_elem_of in Hv. pose proof Hv as Hv2. apply Hsame in Hv2.
  apply definedPairs_get in Hv as [-> _]; [|done].
  apply definedPairs_get in Hv2 as [-> _]; done.
Qed.

Lemma sameSelections_keys props1 props2 :
  Obj.wf props1 -> Obj.wf props2 -> sameSelections props1 props2 ->
  Obj.keys (definedPairs props1) ≡ₚ Obj.keys (definedPairs props2).
Proof.
  intros Hwf1 Hwf2 Hsame.
  apply NoDup_Permutation; [by apply definedPairs_wf..|].
  assert (Hsub : forall p1 p2, Obj.wf p1 -> Obj.wf p2 -> sameSelections p1 p2 ->
            forall k, k ∈ Obj.keys (definedPairs p1) -> k ∈ Obj.keys (definedPairs p2)).
  { intros p1 p2 H1 H2 H12 k Hk.
    apply obj_get_is_Some in Hk as [v Hv]. apply obj_get_elem_of, H12 in Hv.
    apply (list_elem_of_fmap_2 fst) in Hv. done. }
  intros k. split; apply Hsub; try done. intros kv. symmetry. apply Hsame.
Qed.

(** Observationally equal selections have the same cache key. *)
Lemma createCacheKey_sameSelections props1 props2 :
  Obj.wf props1 -> Obj.wf props2 -> sameSelections props1 props2 ->
  createCacheKey (Some props1) = createCacheKey (Some props2).
Proof.
  intros Hwf1 Hwf2 Hsame. rewrite !createCacheKey_spec by done.
  unfold cacheKeySpec.
  assert (Hsorted : merge_sort String.le (Obj.keys (definedPairs props1))
                    = merge_sort String.le (Obj.keys (definedPairs props2))).
  { apply (StronglySorted_unique String.le);
      [apply StronglySorted_merge_sort; apply _..|].
    rewrite !merge_sort_Permutation. by apply sameSelections_keys. }
  rewrite <-Hsorted.
  assert (Hin : forall k, k ∈ merge_sort String.le (Obj.keys (definedPairs props1)) ->
                  entryString props1 k = entryString props2 k).
  { intros k Hk. rewrite merge_sort_Permutation in Hk. unfold entryString.
    by rewrite (sameSelections_get props1 props2 k). }
  destruct (merge_sort String.le (Obj.keys (definedPairs props1))) as [|k0 ks];
    [done|].
  revert Hin. generalize (k0 :: ks). intros l Hin.
  induction l as [|k l IH]; simpl; [done|].
  rewrite Hin by left. f_equal. apply IH. intros k' Hk'. apply Hin. by right.
Qed.

(** ** Resolved selections *)

Lemma fold_left_ext {A B} (f g : A -> B -> A) (l : list B) (a : A) :
  (forall acc x, f acc x = g acc x) -> fold_left f l a = fold_left g l a.
Proof.
  intros Hfg. revert a. induction l as [|x l IH]; intros a; simpl; [done|].
  by rewrite Hfg, IH.
Qed.

Lemma resolveProps_assign defaultVariants props :
  resolveProps defaultVariants props
  = Obj.assign (Obj.spread [defaultVariants]) (definedPairs props).
Proof.
  unfold resolveProps, Obj.assign, definedPairs.
  generalize (Obj.spread [defaultVariants]).
  induction props as [|[k v] props IH]; intros acc; simpl; [done|].
  rewrite filter_cons. simpl. destruct (is_undefined v); simpl; by rewrite IH.
Qed.

Lemma definedPairs_idemp props : definedPairs (definedPairs props) = definedPairs props.
Proof.
  unfold definedPairs. induction props as [|[k v] props IH]; [done|].
  rewrite filter_cons. simpl. destruct (is_undefined v) eqn:Hv; simpl; [done|].
  rewrite filter_cons. simpl. rewrite Hv. simpl. by rewrite IH.
Qed.

Lemma resolveProps_definedPairs defaultVariants props :
  resolveProps defaultVariants (definedPairs props)
  = resolveProps defaultVariants props.
Proof. by rewrite !resolveProps_assign, definedPairs_idemp. Qed.

Lemma resolvePropsNoTheme_definedPairs defaultVariants props :
  resolvePropsNoTheme defaultVariants (definedPairs props)
  = resolvePropsNoTheme defaultVariants props.
Proof.
  unfold resolvePropsNoTheme, definedPairs.
  generalize (Obj.spread [defaultVariants]).
  induction props as [|[k v] props IH]; intros acc; simpl; [done|].
  rewrite filter_cons. simpl. destruct (is_undefined v) eqn:Hv; simpl; [done|].
  by rewrite Hv, IH.
Qed.

Lemma get_definedPairs props k :
  Obj.wf props ->
  Obj.get k (definedPairs props)
  = match Obj.get k props with
    | Some v => if is_undefined v then None else Some v
    | None => None
    end.
Proof.
  unfold definedPairs, Obj.wf, Obj.keys.
  induction props as [|[k' v'] props IH]; [done|].
  intros Hwf. change (NoDup (k' :: props.*1)) in Hwf.
  apply NoDup_cons in Hwf as [Hk' Hnd].
  rewrite filter_cons. simpl.
  destruct (decide (k = k')) as [->|Hkk], (is_undefined v') eqn:Hv; simpl.
  - apply obj_get_None. intros Hin. apply Hk'.
    apply list_elem_of_fmap in Hin as [[k0 v0] [-> [_ Hin]%list_elem_of_filter]].
    by apply (list_elem_of_fmap_2 fst) in Hin.
  - by rewrite decide_True.
  - by apply IH.
  - rewrite decide_False by done. by apply IH.
Qed.

(** The resolved selections: the caller's value where it is defined, the
    default otherwise. *)
Lemma resolveProps_get defaultVariants props k :
  Obj.wf defaultVariants -> Obj.wf props ->
  Obj.get k (resolveProps defaultVariants props)
  = match Obj.get k props with
    | Some v => if is_undefined v then Obj.get k defaultVariants else Some v
    | None => Obj.get k defaultVariants
    end.
Proof.
  intros Hd Hp. rewrite resolveProps_assign.
  rewrite obj_get_assign by by apply definedPairs_wf.
  rewrite get_definedPairs by done. unfold Obj.spread. simpl.
  rewrite obj_assign_nil by done.
  destruct (Obj.get k props) as [v|]; [|done]. by destruct (is_undefined v).
Qed.

(** ** Normalisation *)

Lemma normalizeVariantValue_toString v : normalizeVariantValue v = toString v.
Proof. by destruct v as [| |[]| | |]. Qed.

Lemma normEq_refl v : normEq v v.
Proof. done. Qed.

Lemma selEquiv_refl r : selEquiv r r.
Proof. intros k. destruct (Obj.get k r); constructor. apply normEq_refl. Qed.

Lemma selEquiv_default r1 r2 k :
  selEquiv r1 r2 ->
  normEq (default VUndefined (Obj.get k r1)) (default VUndefined (Obj.get k r2)).
Proof. intros H. destruct (H k); [done|apply normEq_refl]. Qed.

Lemma selEquiv_set r1 r2 k v1 v2 :
  selEquiv r1 r2 -> normEq v1 v2 -> selEquiv (Obj.set k v1 r1) (Obj.set k v2 r2).
Proof.
  intros Hr Hv k'. rewrite !obj_get_set. case_decide; [by constructor|apply Hr].
Qed.

Lemma normEqProps_selEquiv props1 props2 :
  normEqProps props1 props2 -> selEquiv props1 props2.
Proof.
  induction 1 as [|[k1 v1] [k2 v2] p1 p2 [Hk Hv] _ IH]; intros k; simpl in *.
  - constructor.
  - subst. case_decide; [by constructor|apply IH].
Qed.

Lemma normEqProps_keys props1 props2 :
  normEqProps props1 props2 -> Obj.keys props1 = Obj.keys props2.
Proof.
  unfold Obj.keys.
  induction 1 as [|[k1 v1] [k2 v2] p1 p2 [Hk Hv] _ IH]; [done|].
  rewrite !fmap_cons. simpl in *. by rewrite Hk, IH.
Qed.

(** Selections equal up to normalisation have the same cache key. *)
Lemma createCacheKey_normEq props1 props2 :
  normEqProps props1 props2 ->
  createCacheKey (Some props1) = createCacheKey (Some props2).
Proof.
  intros Hp. unfold createCacheKey.
  rewrite (normEqProps_keys _ _ Hp).
  assert (Hfold : forall ks acc,
    fold_left
      (fun key k =>
         let v := default VUndefined (Obj.get k props1) in
         if is_undefined v then key
         else key +:+ k +:+ ":" +:+ toString v +:+ ";") ks acc
    = fold_left
        (fun key k =>
           let v := default VUndefined (Obj.get k props2) in
           if is_undefined v then key
           else key +:+ k +:+ ":" +:+ toString v +:+ ";") ks acc).
  { intros ks acc. apply fold_left_ext. intros key k. simpl.
    destruct (selEquiv_default props1 props2 k (normEqProps_selEquiv _ _ Hp))
      as [-> Hn].
    by rewrite !normalizeVariantValue_toString in Hn; rewrite Hn. }
  by rewrite Hfold.
Qed.

Lemma resolveProps_normEq defaultVariants props1 props2 :
  normEqProps props1 props2 ->
  selEquiv (resolveProps defaultVariants props1)
           (resolveProps defaultVariants props2).
Proof.
  unfold resolveProps. generalize (selEquiv_refl (Obj.spread [defaultVariants])).
  generalize (Obj.spread [defaultVariants]) at 1 3.
  generalize (Obj.spread [defaultVariants]).
  intros acc2 acc1 Hacc Hp. revert acc1 acc2 Hacc.
  induction Hp as [|[k1 v1] [k2 v2] p1 p2 [Hk [Hu Hn]] _ IH];
    intros acc1 acc2 Hacc; simpl in *; [done|].
  subst. rewrite <-Hu. destruct (is_undefined v1) eqn:Hv1; apply IH; [done|].
  apply selEquiv_set; [done|]. split; [congruence|done].
Qed.

Lemma resolvePropsNoTheme_normEq defaultVariants props1 props2 :
  normEqProps props1 props2 ->
  selEquiv (resolvePropsNoTheme defaultVariants props1)
           (resolvePropsNoTheme defaultVariants props2).
Proof.
  unfold resolvePropsNoTheme.
  generalize (selEquiv_refl (Obj.spread [defaultVariants])).
  generalize (Obj.spread [defaultVariants]) at 1 3.
  generalize (Obj.spread [defaultVariants]).
  intros acc2 acc1 Hacc Hp. revert acc1 acc2 Hacc.
  induction Hp as [|[k1 v1] [k2 v2] p1 p2 [Hk [Hu Hn]] _ IH];
    intros acc1 acc2 Hacc; simpl in *; [done|].
  subst. rewrite <-Hu.
  destruct (negb (is_undefined v1) && bool_decide (k2 <> "theme"));
    apply IH; [|done]. by apply selEquiv_set.
Qed.

Lemma forallb_ext_all {A} (f g : A -> bool) (l : list A) :
  (forall x, f x = g x) -> forallb f l = forallb g l.
Proof. intros Hfg. induction l as [|x l IH]; simpl; [done|]. by rewrite Hfg, IH. Qed.

Lemma isMatch_selEquiv conditions r1 r2 :
  selEquiv r1 r2 -> isMatch conditions r1 = isMatch conditions r2.
Proof.
  intros Hr. apply forallb_ext_all. intros [condKey condValue].
  case_decide; [done|]. simpl.
  destruct (selEquiv_default r1 r2 condKey Hr) as [_ Hn]. by rewrite Hn.
Qed.

(** The resolver only sees the selections through normalisation. *)
Lemma computeSlotStyles_selEquiv slot base variants compoundVariants r1 r2 :
  selEquiv r1 r2 ->
  computeSlotStyles slot base variants compoundVariants r1
  = computeSlotStyles slot base variants compoundVariants r2.
Proof.
  intros Hr. unfold computeSlotStyles, applyVariant, applyCompound.
  f_equal. f_equal. f_equal; [|f_equal].
  - apply fold_left_ext. intros style [variantKey variantConfig].
    destruct (Hr variantKey) as [v1 v2 [Hu Hn]|]; [|done].
    by rewrite Hu, Hn.
  - apply fold_left_ext. intros style cv.
    by rewrite (isMatch_selEquiv _ r1 r2).
Qed.

Lemma computeAllSlots_selEquiv frozenSlots base variants compoundVariants r1 r2 :
  selEquiv r1 r2 ->
  computeAllSlots frozenSlots base variants compoundVariants r1
  = computeAllSlots frozenSlots base variants compoundVariants r2.
Proof.
  intros Hr. apply fold_left_ext. intros result slot.
  by rewrite (computeSlotStyles_selEquiv _ _ _ _ r1 r2).
Qed.

(** ** The memoising closure *)

Section engine.
Variable defaultTokens : DefaultTokens.
Variable inputTheme : option (obj value).
Variable inputUtils : UtilsConfig.

(** The functions of this [createNVA] instance. *)
Local Abbreviation computeStyles' :=
  (computeStyles defaultTokens inputTheme inputUtils).
Local Abbreviation recompute' := (recompute defaultTokens inputTheme inputUtils).
Local Abbreviation themedResult' :=
  (themedResult defaultTokens inputTheme inputUtils).
Local Abbreviation styled' := (styled defaultTokens inputTheme inputUtils).
Local Abbreviation reachable' := (reachable defaultTokens inputTheme inputUtils).

Lemma computeStyles_hit d props st r :
  cacheLookup d props st = Some r -> computeStyles' d props st = (r, st).
Proof.
  unfold cacheLookup, computeStyles.
  destruct (props ≫= theme) as [t|], (configOrFactory d) as [c|f];
    simpl; by intros ->.
Qed.

Lemma computeStyles_miss d props st :
  cacheLookup d props st = None ->
  (computeStyles' d props st).1 = length (heap st)
  /\ heap (computeStyles' d props st).2 = heap st ++ [recompute' d props].
Proof.
  unfold cacheLookup, computeStyles, recompute.
  destruct (props ≫= theme) as [t|], (configOrFactory d) as [c|f];
    simpl; by intros ->.
Qed.

Lemma cacheLookup_after d props st :
  cacheLookup d props (computeStyles' d props st).2
  = Some (computeStyles' d props st).1.
Proof.
  destruct (cacheLookup d props st) as [r|] eqn:Hlook.
  - by rewrite (computeStyles_hit _ _ _ _ Hlook).
  - revert Hlook. unfold cacheLookup, computeStyles.
    destruct (props ≫= theme) as [t|], (configOrFactory d) as [c|f];
      simpl; intros ->; simpl; rewrite lookup_insert_eq; simpl;
      by rewrite lookup_insert_eq.
Qed.

Lemma cacheLookup_key d props1 props2 st :
  props1 ≫= theme = props2 ≫= theme ->
  createCacheKey (Some (default [] (variantProps <$> props1)))
  = createCacheKey (Some (default [] (variantProps <$> props2))) ->
  cacheLookup d props1 st = cacheLookup d props2 st.
Proof. unfold cacheLookup. by intros -> ->. Qed.

(** A call whose cache entry exists after an earlier call returns the
    reference of the earlier call and leaves the store as it is. *)
Lemma computeStyles_again d props1 props2 st :
  props1 ≫= theme = props2 ≫= theme ->
  createCacheKey (Some (default [] (variantProps <$> props1)))
  = createCacheKey (Some (default [] (variantProps <$> props2))) ->
  computeStyles' d props2 (computeStyles' d props1 st).2
  = ((computeStyles' d props1 st).1, (computeStyles' d props1 st).2).
Proof.
  intros Ht Hk. apply computeStyles_hit.
  rewrite <-(cacheLookup_key d props1 props2) by done.
  apply cacheLookup_after.
Qed.

(** Calls that agree on the override object, the cache key and the
    recomputation are the same call. *)
Lemma computeStyles_ext d props1 props2 st :
  props1 ≫= theme = props2 ≫= theme ->
  createCacheKey (Some (default [] (variantProps <$> props1)))
  = createCacheKey (Some (default [] (variantProps <$> props2))) ->
  recompute' d props1 = recompute' d props2 ->
  computeStyles' d props1 st = computeStyles' d props2 st.
Proof.
  unfold computeStyles, recompute. intros -> ->.
  destruct (props2 ≫= theme) as [t|], (configOrFactory d) as [c|f];
    simpl; by intros ->.
Qed.

Lemma recompute_selEquiv d t props1 props2 :
  normEqProps props1 props2 ->
  recompute' d (Some {| theme := t; variantProps := props1 |})
  = recompute' d (Some {| theme := t; variantProps := props2 |}).
Proof.
  intros Hp. unfold recompute, themedResult, defaultResult. simpl.
  destruct t as [t|], (configOrFactory d) as [c|f];
    apply computeAllSlots_selEquiv;
    by (apply resolveProps_normEq || apply resolvePropsNoTheme_normEq).
Qed.

Lemma recompute_definedPairs d t props :
  recompute' d (Some {| theme := t; variantProps := definedPairs props |})
  = recompute' d (Some {| theme := t; variantProps := props |}).
Proof.
  unfold recompute, themedResult, defaultResult. simpl.
  destruct t as [t|], (configOrFactory d) as [c|f];
    by rewrite ?resolveProps_definedPairs, ?resolvePropsNoTheme_definedPairs.
Qed.

Lemma sameSelections_definedPairs props : sameSelections (definedPairs props) props.
Proof. intros kv. by rewrite definedPairs_idemp. Qed.

(** C2. For every styled declaration, two calls of its [computeStyles]
    whose selections are observationally equal (the same axis-to-value
    pairs with a value other than [undefined], in any key order) and that
    carry the same override object, if any, return the same reference: the
    second call is a cache hit that leaves the store unchanged.  The key
    they share is the one built from the sorted axis names joined with the
    stringified values. *)
Theorem computeStyles_memo d t props1 props2 st :
  Obj.wf props1 -> Obj.wf props2 -> sameSelections props1 props2 ->
  createCacheKey (Some props1) = cacheKeySpec props1
  /\ createCacheKey (Some props2) = cacheKeySpec props1
  /\ computeStyles' d (Some {| theme := t; variantProps := props2 |})
       (computeStyles' d (Some {| theme := t; variantProps := props1 |}) st).2
     = computeStyles' d (Some {| theme := t; variantProps := props1 |}) st.
Proof.
  intros Hwf1 Hwf2 Hsame.
  pose proof (createCacheKey_sameSelections _ _ Hwf1 Hwf2 Hsame) as Hkey.
  split_and!.
  - by apply createCacheKey_spec.
  - rewrite <-Hkey. by apply createCacheKey_spec.
  - rewrite computeStyles_again; [by destruct (computeStyles' _ _ _)|done..].
Qed.

Lemma obj_get_restOf props axis :
  Obj.get axis (restOf props)
  = if decide (axis = "theme") then None else Obj.get axis (default [] props).
Proof.
  unfold restOf. induction (default [] props) as [|[k v] o IH]; simpl.
  - by case_decide.
  - rewrite filter_cons. simpl. destruct (decide (k <> "theme")) as [Hk|Hk]; simpl.
    + destruct (decide (axis = k)) as [->|Hne]; [by rewrite decide_False|done].
    + apply dec_stable in Hk as ->. rewrite IH.
      by destruct (decide (axis = "theme")).
Qed.

Lemma restOf_wf props : Obj.wf (default [] props) -> Obj.wf (restOf props).
Proof.
  unfold Obj.wf, Obj.keys, restOf. intros Hwf.
  eapply sublist_NoDup; [exact Hwf|]. apply fmap_sublist, sublist_filter.
Qed.


Lemma applyVariant_wf slot variants props : Obj.wf (applyVariant slot variants props).
Proof. rewrite applyVariant_matching. apply obj_fold_assign_wf, NoDup_nil_2. Qed.

End engine.

Ltac decide_by_compute := refine (bool_decide_unpack _ _); vm_compute; exact I.

Lemma computeStyles_memo_witness :
  computeStyles sampleTokens sampleTheme sampleUtils buttonDecl
    (Some {| theme := None;
             variantProps :=
               [("tone", VUndefined); ("square", VBool true); ("size", VStr "lg")] |})
    (computeStyles sampleTokens sampleTheme sampleUtils buttonDecl
       (Some {| theme := None;
                variantProps := [("size", VStr "lg"); ("square", VBool true)] |})
       buttonStore).2
  = computeStyles sampleTokens sampleTheme sampleUtils buttonDecl
      (Some {| theme := None;
               variantProps := [("size", VStr "lg"); ("square", VBool true)] |})
      buttonStore.
Proof.
  apply (computeStyles_memo sampleTokens sampleTheme sampleUtils buttonDecl None
           [("size", VStr "lg"); ("square", VBool true)]
           [("tone", VUndefined); ("square", VBool true); ("size", VStr "lg")]).
  - decide_by_compute.
  - decide_by_compute.
  - intros kv. vm_compute definedPairs.
    rewrite !elem_of_cons, !elem_of_nil. tauto.
Defined.




(** ** The utility expander *)

Lemma obj_extend_app (acc l1 l2 : list string) :
  Obj.extend acc (l1 ++ l2) = Obj.extend (Obj.extend acc l1) l2.
Proof. unfold Obj.extend. by rewrite fold_left_app. Qed.

Lemma obj_keys_fold_assign {A} (parts : list (obj A)) (a : obj A) :
  Obj.keys (fold_left Obj.assign parts a)
  = Obj.extend (Obj.keys a) (mjoin (Obj.keys <$> parts)).
Proof.
  revert a. induction parts as [|p parts IH]; intros a; simpl; [done|].
  by rewrite IH, obj_keys_assign, obj_extend_app.
Qed.

Lemma expandUtils_spread style utils :
  ownKeys style utils ->
  expandUtils (Some style) utils = Obj.spread (contribution utils <$> style).
Proof.
  unfold ownKeys, expandUtils, Obj.spread. generalize (@nil (string * value)).
  induction style as [|[key value] style IH]; intros acc Hown; simpl; [done|].
  rewrite IH by (intros k Hk; apply Hown; by right).
  unfold contribution. simpl.
  destruct (Obj.get key utils) eqn:Hget; [done|].
  rewrite bool_decide_eq_false_2; [done|]. apply Hown; [left|done].
Qed.

Lemma expandUtils_returns style utils :
  ownKeys style utils -> expandUtilsRaises (Some style) utils = false.
Proof.
  unfold ownKeys, expandUtilsRaises. simpl.
  induction style as [|[key value] style IH]; intros Hown; simpl; [done|].
  rewrite IH by (intros k Hk; apply Hown; by right). rewrite orb_false_r.
  destruct (Obj.get key utils) eqn:Hget; [done|].
  rewrite bool_decide_eq_false_2; [done|]. apply Hown; [left|done].
Qed.

Lemma contribution_plain utils (style : obj value) :
  (forall k, k ∈ Obj.keys style -> Obj.get k utils = None) ->
  contribution utils <$> style = (fun entry => [entry]) <$> style.
Proof.
  induction style as [|[k v] style IH]; intros Hplain; [done|].
  rewrite !fmap_cons. f_equal.
  - unfold contribution. simpl. rewrite Hplain; [done|left].
  - apply IH. intros k' Hk'. apply Hplain. by right.
Qed.

Lemma obj_assign_singletons {A} (a style : obj A) :
  fold_left Obj.assign ((fun entry => [entry]) <$> style) a = Obj.assign a style.
Proof.
  revert a. induction style as [|[k v] style IH]; intros a; simpl; [done|].
  by rewrite IH.
Qed.

(** X21. For a style map whose keys, as far as they name no macro of the
    table, are not names inherited from [Object.prototype], expansion
    returns; it replaces every entry whose key names a macro by
    the properties of that macro applied to the entry's value, assigned at
    the entry's position in iteration order, and copies every other entry:
    the result is the shallow merge of the entries' contributions.  Macro
    outputs are not expanded again, so a key of the result is a key of some
    contribution, the value at a key is that of the last contribution that
    has it, and a style map without macro keys is returned unchanged. *)
Theorem expandUtils_contributions (style : obj value) (utils : UtilsConfig) :
  Obj.wf style ->
  Forall Obj.wf (contribution utils <$> style) ->
  (forall k, k ∈ Obj.keys style -> Obj.get k utils = None -> k ∉ objectPrototypeNames) ->
  expandUtilsRaises (Some style) utils = false
  /\ expandUtils (Some style) utils = Obj.spread (contribution utils <$> style)
  /\ (forall k,
        k ∈ Obj.keys (expandUtils (Some style) utils)
        <-> exists entry, entry ∈ style /\ k ∈ Obj.keys (contribution utils entry))
  /\ (forall k,
        Obj.get k (expandUtils (Some style) utils)
        = Obj.lastDefined k (contribution utils <$> style))
  /\ ((forall k, k ∈ Obj.keys style -> Obj.get k utils = None) ->
      expandUtils (Some style) utils = style).
Proof.
  intros Hstyle Hmacros Hown. split; [by apply expandUtils_returns|].
  rewrite expandUtils_spread by done. split_and!.
  - done.
  - intros k. unfold Obj.spread. rewrite obj_keys_fold_assign.
    rewrite obj_elem_of_extend, elem_of_nil. split.
    + intros [[]|Hk]. apply list_elem_of_join in Hk as [ks [Hk Hks]].
      apply list_elem_of_fmap in Hks as [c [-> Hc]].
      apply list_elem_of_fmap in Hc as [entry [-> Hentry]]. eauto.
    + intros [entry [Hentry Hk]]. right. apply list_elem_of_join.
      exists (Obj.keys (contribution utils entry)). split; [done|].
      by apply list_elem_of_fmap_2, list_elem_of_fmap_2.
  - intros k. unfold Obj.spread. rewrite obj_get_fold_assign by done.
    by destruct (Obj.lastDefined k _).
  - intros Hplain. unfold Obj.spread.
    rewrite contribution_plain, obj_assign_singletons by done.
    by apply obj_assign_nil.
Qed.

Lemma expandUtils_contributions_witness :
  expandUtils (Some [("px", VNum 16); ("color", VStr "red")]) sampleUtils
  = [("paddingLeft", VNum 16); ("paddingRight", VNum 16); ("color", VStr "red")]
  /\ Obj.get "px"
       (expandUtils (Some [("px", VNum 16); ("color", VStr "red")]) sampleUtils)
     = None.
Proof.
  destruct (expandUtils_contributions
              [("px", VNum 16); ("color", VStr "red")] sampleUtils)
    as (_ & Heq & _ & Hget & _).
  - decide_by_compute.
  - decide_by_compute.
  - intros k Hk _. change (k ∈ ["px"; "color"]) in Hk.
    rewrite !elem_of_cons, elem_of_nil in Hk.
    destruct Hk as [->|[->|[]]]; decide_by_compute.
  - split; [by rewrite Heq|by rewrite Hget].
Defined.

(** C6. Expansion takes a key for a macro when the macro table merely
    inherits the name: [constructor] names no macro of the empty table, and
    yet the entry under it is not copied.  [expandUtils] calls the
    inherited [Object] on the value, and [Object(5)] has no property to
    assign; the result lacks the entry, while an entry under any other key
    is copied. *)
Theorem expandUtils_inherited_key :
  Obj.has "constructor" (@nil (string * (value -> list (string * value)))) = false
  /\ expandUtilsRaises (Some [("constructor", VNum 5); ("color", VStr "red")]) [] = false
  /\ expandUtils (Some [("constructor", VNum 5); ("color", VStr "red")]) []
     = [("color", VStr "red")]
  /\ expandUtils (Some [("padding", VNum 5); ("color", VStr "red")]) []
     = [("padding", VNum 5); ("color", VStr "red")].
Proof. by split_and!. Qed.

(** Expansion is not recursive: a macro key in a macro's output stays. *)
Example expandUtils_not_recursive :
  expandUtils (Some [("mx", VNum 4)])
    [("mx", fun v => [("px", v)]); ("px", fun v => [("paddingLeft", v)])]
  = [("px", VNum 4)].
Proof. reflexivity. Qed.

(** ** The token merger *)

Section theme.
Variable defaultTokens : DefaultTokens.
Variable inputTheme : option (obj value).

Lemma customTokens_fold (ks : list string) (acc : obj value) key :
  Obj.get key
    (fold_left
       (fun acc key =>
          if bool_decide (key ∈ knownThemeKeys) then acc
          else Obj.set key (optGet inputTheme key) acc)
       ks acc)
  = if bool_decide (key ∈ ks /\ key ∉ knownThemeKeys)
    then Some (optGet inputTheme key)
    else Obj.get key acc.
Proof.
  revert acc. induction ks as [|k ks IH]; intros acc; cbn [fold_left].
  - rewrite bool_decide_eq_false_2; [done|]. by intros [?%elem_of_nil _].
  - rewrite IH. destruct (decide (key ∈ ks /\ key ∉ knownThemeKeys)) as [[H1 H2]|Hn].
    + rewrite !bool_decide_eq_true_2; [done|split; [by right|done]|done].
    + rewrite (bool_decide_eq_false_2 _ Hn).
      destruct (decide (k ∈ knownThemeKeys)) as [Hk|Hk].
      * rewrite (bool_decide_eq_true_2 _ Hk).
        rewrite bool_decide_eq_false_2; [done|].
        intros [[->|?]%elem_of_cons ?]; [done|]. by apply Hn.
      * rewrite (bool_decide_eq_false_2 _ Hk), obj_get_set.
        destruct (decide (key = k)) as [->|Hne].
        -- rewrite bool_decide_eq_true_2; [done|]. split; [left|done].
        -- rewrite bool_decide_eq_false_2; [done|].
           intros [[->|?]%elem_of_cons ?]; [done|]. by apply Hn.
Qed.

Lemma customTokens_get key :
  Obj.get key (customTokens inputTheme)
  = if bool_decide (key ∈ knownThemeKeys) then None
    else inputTheme ≫= Obj.get key.
Proof.
  unfold customTokens. rewrite customTokens_fold. simpl.
  destruct (decide (key ∈ knownThemeKeys)) as [Hk|Hk].
  - rewrite (bool_decide_eq_true_2 _ Hk).
    rewrite bool_decide_eq_false_2; [done|]. by intros [_ ?].
  - rewrite (bool_decide_eq_false_2 _ Hk).
    destruct (decide (key ∈ Obj.keys (default [] inputTheme))) as [Hin|Hin].
    + rewrite bool_decide_eq_true_2 by done.
      apply obj_get_is_Some in Hin as [v Hv]. unfold optGet.
      destruct inputTheme as [input|]; simpl in *; [by rewrite Hv|done].
    + rewrite bool_decide_eq_false_2 by by intros [? _].
      destruct inputTheme as [input|]; simpl in *; [|done].
      by rewrite obj_get_None.
Qed.

Lemma customTokens_wf : Obj.wf (customTokens inputTheme).
Proof.
  unfold customTokens. generalize (Obj.keys (default [] inputTheme)).
  assert (Hnil : Obj.wf (@nil (string * value))) by apply NoDup_nil_2.
  revert Hnil. generalize (@nil (string * value)). intros acc Hacc ks.
  revert acc Hacc. induction ks as [|k ks IH]; intros acc Hacc; simpl; [done|].
  apply IH. case_bool_decide; [done|by apply obj_wf_set].
Qed.

(** A property of [resolvedTheme] is the custom token of that name, or
    else the property of the object literal. *)
Lemma resolvedTheme_get key :
  Obj.get key (resolvedTheme defaultTokens inputTheme)
  = match Obj.get key (customTokens inputTheme) with
    | Some v => Some v
    | None =>
        Obj.get key
          [ ("colors", VObj (mergedColors defaultTokens inputTheme));
            ("spacing", mergedTokens inputTheme (spacing defaultTokens) "spacing");
            ("fontSizes", mergedTokens inputTheme (fontSizes defaultTokens) "fontSizes");
            ("radii", mergedTokens inputTheme (radii defaultTokens) "radii");
            ("shadows", mergedTokens inputTheme (shadows defaultTokens) "shadows");
            ("zIndex", mergedTokens inputTheme (zIndex defaultTokens) "zIndex");
            ("opacity", mergedTokens inputTheme (opacity defaultTokens) "opacity");
            ("lineHeights", mergedTokens inputTheme (lineHeights defaultTokens) "lineHeights");
            ("fontWeights", mergedTokens inputTheme (fontWeights defaultTokens) "fontWeights");
            ("letterSpacing", mergedTokens inputTheme (letterSpacing defaultTokens) "letterSpacing");
            ("borderWidths", mergedTokens inputTheme (borderWidths defaultTokens) "borderWidths");
            ("durations", mergedTokens inputTheme (durations defaultTokens) "durations") ]
    end.
Proof.
  unfold resolvedTheme, Obj.spread. cbn [fold_left].
  rewrite obj_get_assign by apply customTokens_wf.
  destruct (Obj.get key (customTokens inputTheme)); [done|].
  rewrite obj_assign_nil; [done|]. decide_by_compute.
Qed.

(** C8. Every known token category of the resolved theme is the default
    table shallow-merged with the user's table, so that a user entry wins
    over the default entry of the same key; every input key outside the
    known set is passed through with its value.  The default tables are
    only read. *)
Theorem resolvedTheme_tokens :
  (forall category defaults user,
     (category, defaults) ∈ tokenCategories defaultTokens ->
     orEmpty (optGet inputTheme category) = VObj user ->
     Obj.wf defaults -> Obj.wf user ->
     Obj.get category (resolvedTheme defaultTokens inputTheme)
     = Some (VObj (Obj.spread [defaults; user]))
     /\ forall k,
          Obj.get k (Obj.spread [defaults; user])
          = match Obj.get k user with
            | Some v => Some v
            | None => Obj.get k defaults
            end)
  /\ (forall key v,
        key ∉ knownThemeKeys ->
        inputTheme ≫= Obj.get key = Some v ->
        Obj.get key (resolvedTheme defaultTokens inputTheme) = Some v).
Proof.
  split.
  - intros category defaults user Hcat Huser Hdefaults Hwf. split.
    + rewrite resolvedTheme_get, customTokens_get.
      unfold tokenCategories in Hcat.
      repeat (apply elem_of_cons in Hcat as [[= -> ->]|Hcat];
              [rewrite bool_decide_eq_true_2 by decide_by_compute;
               unfold mergedTokens; rewrite Huser; reflexivity|]).
      by apply elem_of_nil in Hcat.
    + intros k. rewrite obj_spread_pair, obj_get_assign by done. done.
  - intros key v Hkey Hv.
    rewrite resolvedTheme_get, customTokens_get.
    by rewrite bool_decide_eq_false_2, Hv.
Qed.
End theme.

Lemma resolvedTheme_tokens_witness :
  Obj.get "spacing" (resolvedTheme sampleTokens sampleTheme)
  = Some (VObj [("4", VNum 18); ("md", VNum 16)])
  /\ Obj.get "breakpoints" (resolvedTheme sampleTokens sampleTheme)
     = Some (VObj [("sm", VNum 640)]).
Proof.
  destruct (resolvedTheme_tokens sampleTokens sampleTheme) as [Hknown Hcustom].
  split.
  - destruct (Hknown "spacing" [("4", VNum 16)] [("md", VNum 16); ("4", VNum 18)])
      as [Hget _]; [by left|reflexivity|decide_by_compute..|].
    by rewrite Hget.
  - apply Hcustom; [decide_by_compute|reflexivity].
Defined.

(** ** Reachable stores *)

Lemma lookup_insert_nested `{Countable K} (m : gmap K (gmap string nat))
    (c c' : K) (key key' : string) (x r : nat) :
  <[c := <[key := x]> (default ∅ (m !! c))]> m !! c' ≫= (.!! key') = Some r ->
  (c' = c /\ key' = key /\ r = x) \/ m !! c' ≫= (.!! key') = Some r.
Proof.
  destruct (decide (c' = c)) as [->|Hc].
  - rewrite lookup_insert_eq. simpl.
    destruct (decide (key' = key)) as [->|Hkey].
    + rewrite lookup_insert_eq. intros [= <-]. by left.
    + rewrite lookup_insert_ne by done. intros Hr. right.
      destruct (m !! c); simpl in *; [done|]. by rewrite lookup_empty in Hr.
  - rewrite lookup_insert_ne by done. by right.
Qed.

Lemma computeAllSlots_fold frozenSlots (f : string -> list (string * value))
    (acc : obj (obj value)) :
  Obj.keys (fold_left (fun result slot => Obj.set slot (f slot) result) frozenSlots acc)
  = Obj.extend (Obj.keys acc) frozenSlots
  /\ forall slot,
      Obj.get slot
        (fold_left (fun result slot => Obj.set slot (f slot) result) frozenSlots acc)
      = if decide (slot ∈ frozenSlots) then Some (f slot) else Obj.get slot acc.
Proof.
  revert acc. induction frozenSlots as [|s slots IH]; intros acc; cbn [fold_left].
  - split; [done|]. intros slot. by rewrite decide_False by apply not_elem_of_nil.
  - destruct (IH (Obj.set s (f s) acc)) as [Hkeys Hget]. split.
    + rewrite Hkeys, obj_keys_set. done.
    + intros slot. rewrite Hget, obj_get_set.
      destruct (decide (slot ∈ slots)) as [Hin|Hin].
      * rewrite decide_True; [done|by right].
      * destruct (decide (slot = s)) as [->|Hne].
        -- rewrite decide_True; [done|left].
        -- rewrite decide_False; [done|]. by intros [?|?]%elem_of_cons.
Qed.

(** The result object has the declared slots as keys, in declaration
    order, each bound to its computed style. *)
Lemma computeAllSlots_shape frozenSlots base variants compoundVariants resolvedProps :
  Obj.keys (computeAllSlots frozenSlots base variants compoundVariants resolvedProps)
  = Obj.extend [] frozenSlots
  /\ forall slot,
      slot ∈ frozenSlots ->
      Obj.get slot
        (computeAllSlots frozenSlots base variants compoundVariants resolvedProps)
      = Some (computeSlotStyles slot base variants compoundVariants resolvedProps).
Proof.
  unfold computeAllSlots.
  destruct (computeAllSlots_fold frozenSlots
              (fun slot => computeSlotStyles slot base variants compoundVariants
                             resolvedProps) []) as [Hkeys Hget].
  split; [done|]. intros slot Hslot. by rewrite Hget, decide_True.
Qed.

Lemma fold_assign_empty {A} (parts : list (obj A)) (acc : obj A) :
  Forall (fun part => part = []) parts -> fold_left Obj.assign parts acc = acc.
Proof.
  revert acc. induction parts as [|p parts IH]; intros acc Hparts; [done|].
  apply Forall_cons in Hparts as [-> Hparts]. simpl. by apply IH.
Qed.

(** A silent slot gets the empty style map, whatever the selections. *)
Lemma computeSlotStyles_silent slot base variants compoundVariants props :
  silentSlot slot base variants compoundVariants ->
  computeSlotStyles slot base variants compoundVariants props = [].
Proof.
  intros (Hbase & Hvariants & Hcompounds).
  rewrite computeSlotStyles_spread, obj_spread_cons, Hbase.
  apply fold_assign_empty, Forall_app. split; apply Forall_forall; intros st Hst.
  - unfold matchingVariantStyles in Hst.
    apply list_elem_of_omap in Hst as [[axis labels] [Hin Hst]].
    destruct (Obj.get axis props) as [selected|]; simpl in Hst; [|done].
    destruct (is_undefined selected); [done|].
    destruct labels as [labels|]; simpl in Hst; [|done].
    specialize (Hvariants axis labels (normalizeVariantValue selected) Hin).
    by rewrite Hst in Hvariants.
  - unfold matchingCompoundStyles in Hst.
    apply list_elem_of_omap in Hst as [cv [Hin Hst]].
    destruct (isMatch (conditions cv) props); [|done].
    specialize (Hcompounds cv Hin). by rewrite Hst in Hcompounds.
Qed.

Section engine_state.
Variable defaultTokens : DefaultTokens.
Variable inputTheme : option (obj value).
Variable inputUtils : UtilsConfig.

Local Abbreviation computeStyles' :=
  (computeStyles defaultTokens inputTheme inputUtils).
Local Abbreviation recompute' := (recompute defaultTokens inputTheme inputUtils).
Local Abbreviation themedResult' :=
  (themedResult defaultTokens inputTheme inputUtils).
Local Abbreviation styled' := (styled defaultTokens inputTheme inputUtils).
Local Abbreviation reachable' := (reachable defaultTokens inputTheme inputUtils).
Local Abbreviation cacheInv' := (cacheInv defaultTokens inputTheme inputUtils).
Local Abbreviation resolvesAgainst' :=
  (resolvesAgainst defaultTokens inputTheme inputUtils).
Local Abbreviation overriddenTheme' := (overriddenTheme defaultTokens inputTheme).

(** What a call does to the store: nothing on a hit; on a miss it
    allocates the recomputed result and adds one cache entry for it. *)
Lemma computeStyles_cases d props st :
  (exists r, cacheLookup d props st = Some r /\ computeStyles' d props st = (r, st))
  \/ (cacheLookup d props st = None
      /\ (computeStyles' d props st).1 = length (heap st)
      /\ heap (computeStyles' d props st).2 = heap st ++ [recompute' d props]
      /\ nextRef (computeStyles' d props st).2 = nextRef st
      /\ primitiveCache (computeStyles' d props st).2 = primitiveCache st
      /\ styleCache (computeStyles' d props st).2 = styleCache st
      /\ (forall ref key r,
            instanceCache (computeStyles' d props st).2 !! ref ≫= (.!! key) = Some r ->
            (ref = configRef d
             /\ key = createCacheKey (Some (default [] (variantProps <$> props)))
             /\ r = length (heap st))
            \/ instanceCache st !! ref ≫= (.!! key) = Some r)
      /\ (forall ref themeId key r,
            themeOverrideCache (computeStyles' d props st).2 !! (ref, themeId)
              ≫= (.!! key) = Some r ->
            (ref = configRef d
             /\ key = createCacheKey (Some (default [] (variantProps <$> props)))
             /\ r = length (heap st))
            \/ themeOverrideCache st !! (ref, themeId) ≫= (.!! key) = Some r)).
Proof.
  destruct (cacheLookup d props st) as [r|] eqn:Hlook.
  { left. exists r. split; [done|]. by apply computeStyles_hit. }
  right. split; [done|]. revert Hlook. unfold cacheLookup, computeStyles, recompute.
  destruct (props ≫= theme) as [t|], (configOrFactory d) as [c|f];
    simpl; intros ->; simpl; split_and!; try done; try by right.
  - intros ref key r Hr. by apply lookup_insert_nested in Hr.
  - intros ref themeId key r Hr.
    apply lookup_insert_nested in Hr as [([= -> ->] & -> & ->)|Hr];
      [by left|by right].
  - intros ref key r Hr. by apply lookup_insert_nested in Hr.
  - intros ref key r Hr. by apply lookup_insert_nested in Hr.
Qed.

Lemma cacheInv_init : cacheInv' [] emptyStore.
Proof.
  split_and!.
  - apply NoDup_nil_2.
  - by intros d ?%elem_of_nil.
  - intros ref key r. simpl. by rewrite lookup_empty.
  - intros ref themeId key r. simpl. by rewrite lookup_empty.
Qed.

Lemma cacheInv_styled ds st c :
  cacheInv' ds st -> cacheInv' (ds ++ [(styled' c st).1]) (styled' c st).2.
Proof.
  intros (Hnd & Hfresh & Hinst & Htheme). split_and!.
  - rewrite fmap_app. apply NoDup_app. split_and!; [done| |apply NoDup_singleton].
    intros ref Hin ->%list_elem_of_singleton.
    apply list_elem_of_fmap in Hin as [d [Href Hd]].
    apply Hfresh in Hd. simpl in Href. lia.
  - intros d [Hd| ->%list_elem_of_singleton]%elem_of_app; simpl; [|lia].
    apply Hfresh in Hd. lia.
  - intros ref key r Hr. destruct (Hinst ref key r Hr) as (d & props & Hd & ?).
    exists d, props. split; [apply elem_of_app; by left|done].
  - intros ref themeId key r Hr.
    destruct (Htheme ref themeId key r Hr) as (d & props & Hd & ?).
    exists d, props. split; [apply elem_of_app; by left|done].
Qed.

Lemma cacheInv_compute ds st d props :
  cacheInv' ds st -> d ∈ ds -> cacheInv' ds (computeStyles' d props st).2.
Proof.
  intros (Hnd & Hfresh & Hinst & Htheme) Hd.
  destruct (computeStyles_cases d props st)
    as [(r & _ & ->)|(_ & _ & Hheap & Hnext & _ & _ & Hinst' & Htheme')];
    [done|].
  assert (Hold : forall r0 result, heap st !! r0 = Some result ->
            heap (computeStyles' d props st).2 !! r0 = Some result).
  { intros r0 result Hr0. rewrite Hheap. by apply lookup_app_l_Some. }
  assert (Hnew : heap (computeStyles' d props st).2 !! length (heap st)
                 = Some (recompute' d props)).
  { rewrite Hheap. by rewrite list_lookup_middle. }
  split_and!; [done|by rewrite Hnext| |].
  - intros ref key r Hr.
    destruct (Hinst' ref key r Hr) as [(-> & -> & ->)|Hr'].
    + by exists d, props.
    + destruct (Hinst ref key r Hr') as (d0 & props0 & ? & ? & ? & ?).
      exists d0, props0. split_and!; [done..|by apply Hold].
  - intros ref themeId key r Hr.
    destruct (Htheme' ref themeId key r Hr) as [(-> & -> & ->)|Hr'].
    + by exists d, props.
    + destruct (Htheme ref themeId key r Hr') as (d0 & props0 & ? & ? & ? & ?).
      exists d0, props0. split_and!; [done..|by apply Hold].
Qed.

Lemma cacheInv_clear ds st : cacheInv' ds st -> cacheInv' ds (clearStyleCache st).2.
Proof. done. Qed.

Lemma reachable_cacheInv ds st : reachable' ds st -> cacheInv' ds st.
Proof.
  induction 1;
    eauto using cacheInv_init, cacheInv_styled, cacheInv_compute, cacheInv_clear.
Qed.

Lemma cacheInv_configRef_inj ds st d1 d2 :
  cacheInv' ds st -> d1 ∈ ds -> d2 ∈ ds -> configRef d1 = configRef d2 -> d1 = d2.
Proof.
  intros (Hnd & _) H1 H2 Href.
  apply list_elem_of_lookup in H1 as [i1 H1], H2 as [i2 H2].
  assert (i1 = i2) as ->; [|congruence].
  eapply NoDup_lookup; [done| |]; rewrite list_lookup_fmap; [by rewrite H1|].
  by rewrite H2, Href.
Qed.

(** In a reachable store the object a call returns is the recomputation
    for props that have the cache key of the call's props. *)
Lemma computeStyles_result ds st d props :
  reachable' ds st -> d ∈ ds ->
  exists props',
    createCacheKey (Some (default [] (variantProps <$> props')))
    = createCacheKey (Some (default [] (variantProps <$> props)))
    /\ heap (computeStyles' d props st).2 !! (computeStyles' d props st).1
       = Some (recompute' d props').
Proof.
  intros Hreach Hd. pose proof (reachable_cacheInv _ _ Hreach) as Hinv.
  destruct (computeStyles_cases d props st)
    as [(r & Hlook & ->)|(_ & -> & -> & _)].
  - destruct Hinv as (Hnd & Hfresh & Hinst & Htheme). simpl.
    assert (Hentry : exists d0 props0,
              d0 ∈ ds /\ configRef d0 = configRef d
              /\ createCacheKey (Some (default [] (variantProps <$> props0)))
                 = createCacheKey (Some (default [] (variantProps <$> props)))
              /\ heap st !! r = Some (recompute' d0 props0)).
    { unfold cacheLookup in Hlook.
      destruct (props ≫= theme) as [t|], (configOrFactory d) as [c|f]; eauto. }
    destruct Hentry as (d0 & props0 & Hd0 & Href & Hkey & Hr).
    assert (d0 = d) as ->
      by (eapply cacheInv_configRef_inj; [exact (reachable_cacheInv _ _ Hreach)|done..]).
    by exists props0.
  - exists props. split; [done|]. by rewrite list_lookup_middle.
Qed.

(** Whenever the cache key determines what the resolver computes, the
    object a call returns is the uncached recomputation for its props. *)
Lemma computeStyles_transparent ds st d props :
  reachable' ds st -> d ∈ ds ->
  (forall props',
     createCacheKey (Some (default [] (variantProps <$> props')))
     = createCacheKey (Some (default [] (variantProps <$> props))) ->
     recompute' d props' = recompute' d props) ->
  heap (computeStyles' d props st).2 !! (computeStyles' d props st).1
  = Some (recompute' d props).
Proof.
  intros Hreach Hd Hkey.
  destruct (computeStyles_result ds st d props Hreach Hd) as (props' & Hk & ->).
  by rewrite (Hkey props' Hk).
Qed.

Lemma recompute_resolvesAgainst d props :
  exists expandedBase expandedVariants expandedCompounds resolvedProps,
    resolvesAgainst' d expandedBase expandedVariants expandedCompounds
    /\ recompute' d props
       = computeAllSlots (frozenSlots d) expandedBase expandedVariants
           expandedCompounds resolvedProps.
Proof.
  unfold recompute, themedResult, defaultResult.
  destruct (props ≫= theme) as [t|], (configOrFactory d) as [c|f] eqn:Hcfg;
    do 4 eexists; (split; [|reflexivity]);
    try (left; by split_and!). right. by exists f, t.
Qed.
End engine_state.

Section engine_claims.
Variable defaultTokens : DefaultTokens.
Variable inputTheme : option (obj value).
Variable inputUtils : UtilsConfig.

Local Abbreviation computeStyles' :=
  (computeStyles defaultTokens inputTheme inputUtils).
Local Abbreviation recompute' := (recompute defaultTokens inputTheme inputUtils).
Local Abbreviation themedResult' :=
  (themedResult defaultTokens inputTheme inputUtils).
Local Abbreviation reachable' := (reachable defaultTokens inputTheme inputUtils).
Local Abbreviation resolvesAgainst' :=
  (resolvesAgainst defaultTokens inputTheme inputUtils).
Local Abbreviation resolvedTheme' := (resolvedTheme defaultTokens inputTheme).
Local Abbreviation overriddenTheme' := (overriddenTheme defaultTokens inputTheme).


(** C9. [clearStyleCache] returns nothing, empties the module-level
    string-keyed cache and leaves the heap and every identity-keyed cache
    as they are; a [computeStyles] call whose cache entry existed before
    the clear still returns that reference afterwards, for the standalone
    [styled] as well. *)
Theorem clearStyleCache_frame st d props sd sprops :
  (clearStyleCache st).1 = tt
  /\ primitiveCache (clearStyleCache st).2 = ∅
  /\ heap (clearStyleCache st).2 = heap st
  /\ styleCache (clearStyleCache st).2 = styleCache st
  /\ instanceCache (clearStyleCache st).2 = instanceCache st
  /\ themeOverrideCache (clearStyleCache st).2 = themeOverrideCache st
  /\ (forall r,
        cacheLookup d props st = Some r ->
        computeStyles' d props (clearStyleCache st).2
        = (r, (clearStyleCache st).2))
  /\ computeStyles' d props
       (clearStyleCache (computeStyles' d props st).2).2
     = ((computeStyles' d props st).1,
        (clearStyleCache (computeStyles' d props st).2).2)
  /\ (standalone.computeStyles sd sprops (clearStyleCache st).2).1
     = (standalone.computeStyles sd sprops st).1.
Proof.
  split_and!; try done.
  - intros r Hr. by apply computeStyles_hit.
  - apply computeStyles_hit.
    exact (cacheLookup_after defaultTokens inputTheme inputUtils d props st).
  - unfold standalone.computeStyles. simpl.
    by destruct (styleCache st !! standalone.s_configRef sd
                   ≫= (.!! createCacheKey sprops)).
Qed.

Lemma cacheLookup_other_override d factory t1 t2 props1 props2 st :
  configOrFactory d = inr factory ->
  theme_id t1 <> theme_id t2 ->
  cacheLookup d (Some {| theme := Some t2; variantProps := props2 |})
    (computeStyles' d (Some {| theme := Some t1; variantProps := props1 |}) st).2
  = cacheLookup d (Some {| theme := Some t2; variantProps := props2 |}) st.
Proof.
  intros Hf Hid. unfold cacheLookup, computeStyles. simpl. rewrite Hf.
  destruct (themeOverrideCache st !! (configRef d, theme_id t1)
              ≫= (.!! createCacheKey (Some props1))); simpl; [done|].
  rewrite lookup_insert_ne; [done|]. by intros [= ?].
Qed.

Lemma overriddenTheme_get themeOverride k :
  Obj.get k (overriddenTheme' themeOverride)
  = if decide (k = "colors") then Some (VObj (theme_colors themeOverride))
    else Obj.get k resolvedTheme'.
Proof.
  unfold overriddenTheme. rewrite obj_get_set. case_decide; [done|].
  unfold Obj.spread. simpl. rewrite obj_assign_nil; [done|].
  apply obj_wf_spread.
Qed.

End engine_claims.

(** ** The standalone [styled] *)

(** The closure of the standalone [styled] memoises in the same way: a
    second call with observationally equal props returns the reference of
    the first and leaves the store as it is. *)
Lemma standalone_computeStyles_memo d props1 props2 st :
  Obj.wf props1 -> Obj.wf props2 -> sameSelections props1 props2 ->
  standalone.computeStyles d (Some props2)
    (standalone.computeStyles d (Some props1) st).2
  = standalone.computeStyles d (Some props1) st.
Proof.
  intros Hwf1 Hwf2 Hsame. unfold standalone.computeStyles.
  rewrite <-(createCacheKey_sameSelections props1 props2) by done.
  destruct (styleCache st !! standalone.s_configRef d
              ≫= (.!! createCacheKey (Some props1))) as [r|] eqn:Hlook; simpl.
  - by rewrite Hlook.
  - rewrite lookup_insert_eq. simpl. by rewrite lookup_insert_eq.
Qed.

(** ** The sample declarations *)

(** C3. The cache key does not determine the selections: after a call
    with [{size: "sm", tone: "dark"}], a call of the same declaration with
    [{size: "sm;tone:dark"}] has the same key ["size:sm;tone:dark;"] and is
    served the object of the first call, whose content differs from what
    the resolver computes for the second selections. *)
Theorem computeStyles_key_collision :
  createCacheKey (Some [("size", VStr "sm"); ("tone", VStr "dark")])
  = createCacheKey (Some [("size", VStr "sm;tone:dark")])
  /\ reachable sampleTokens sampleTheme sampleUtils [collidingDecl]
       (computeStyles sampleTokens sampleTheme sampleUtils collidingDecl
          (Some {| theme := None;
                   variantProps := [("size", VStr "sm"); ("tone", VStr "dark")] |})
          collidingStore).2
  /\ heap
       (computeStyles sampleTokens sampleTheme sampleUtils collidingDecl
          (Some {| theme := None; variantProps := [("size", VStr "sm;tone:dark")] |})
          (computeStyles sampleTokens sampleTheme sampleUtils collidingDecl
             (Some {| theme := None;
                      variantProps := [("size", VStr "sm"); ("tone", VStr "dark")] |})
             collidingStore).2).2
     !! (computeStyles sampleTokens sampleTheme sampleUtils collidingDecl
           (Some {| theme := None; variantProps := [("size", VStr "sm;tone:dark")] |})
           (computeStyles sampleTokens sampleTheme sampleUtils collidingDecl
              (Some {| theme := None;
                       variantProps := [("size", VStr "sm"); ("tone", VStr "dark")] |})
              collidingStore).2).1
     = Some [("root", [("padding", VNum 8); ("color", VStr "black")])]
  /\ recompute sampleTokens sampleTheme sampleUtils collidingDecl
       (Some {| theme := None; variantProps := [("size", VStr "sm;tone:dark")] |})
     = [("root", [("padding", VNum 99)])].
Proof.
  split_and!.
  - by vm_compute.
  - apply reach_compute; [|left].
    exact (reach_styled sampleTokens sampleTheme sampleUtils [] emptyStore
             (inl collidingConfig) (reach_init _ _ _)).
  - by vm_compute.
  - by vm_compute.
Qed.



Lemma clearStyleCache_frame_witness :
  computeStyles sampleTokens sampleTheme sampleUtils buttonDecl None
    (clearStyleCache
       (computeStyles sampleTokens sampleTheme sampleUtils buttonDecl None
          buttonStore).2).2
  = (0,
     (clearStyleCache
        (computeStyles sampleTokens sampleTheme sampleUtils buttonDecl None
           buttonStore).2).2).
Proof.
  destruct (clearStyleCache_frame sampleTokens sampleTheme sampleUtils
              (computeStyles sampleTokens sampleTheme sampleUtils buttonDecl None
                 buttonStore).2
              buttonDecl None
              (standalone.styled buttonConfig emptyStore).1 None)
    as (_ & _ & _ & _ & _ & _ & Hhit & _).
  apply Hhit. by vm_compute.
Defined.

(** The scenarios of the specification, run on the model. *)

Example scenario_default_size :
  heap (computeStyles sampleTokens sampleTheme sampleUtils buttonDecl None
          buttonStore).2
  !! (computeStyles sampleTokens sampleTheme sampleUtils buttonDecl None
        buttonStore).1
  = Some [("root", [("padding", VNum 8); ("width", VNum 10)]);
          ("text", [("fontSize", VNum 14)])].
Proof. by vm_compute. Qed.

Example scenario_compound :
  heap (computeStyles sampleTokens sampleTheme sampleUtils buttonDecl
          (Some {| theme := None;
                   variantProps := [("size", VStr "lg"); ("square", VBool true)] |})
          buttonStore).2
  !! (computeStyles sampleTokens sampleTheme sampleUtils buttonDecl
        (Some {| theme := None;
                 variantProps := [("size", VStr "lg"); ("square", VBool true)] |})
        buttonStore).1
  = Some [("root", [("padding", VNum 24); ("width", VNum 64); ("height", VNum 64)]);
          ("text", [("fontSize", VNum 14)])].
Proof. by vm_compute. Qed.

Example scenario_macro :
  expandBaseUtils (Some [("root", Some [("px", VNum 16)])]) sampleUtils
  = [("root", Some [("paddingLeft", VNum 16); ("paddingRight", VNum 16)])].
Proof. reflexivity. Qed.

Example scenario_flat_colors :
  colorScheme (Some [("colors", VObj [("primary", VStr "#000")])])
  = {| light := VObj [("primary", VStr "#000")];
       dark := VObj [("primary", VStr "#000")] |}.
Proof. reflexivity. Qed.

Example scenario_factory_override :
  heap (computeStyles sampleTokens sampleTheme sampleUtils badgeDecl
          (Some {| theme := Some redTheme1; variantProps := [] |}) badgeStore).2
  !! (computeStyles sampleTokens sampleTheme sampleUtils badgeDecl
        (Some {| theme := Some redTheme1; variantProps := [] |}) badgeStore).1
  = Some [("root", [("backgroundColor", VStr "#f00"); ("paddingLeft", VNum 16);
                    ("paddingRight", VNum 16)])].
Proof. by vm_compute. Qed.

(** * Further properties of the engine *)

(** ** Cache keys *)

Lemma entryString_not_braces props k (rest : string) :
  entryString props k +:+ rest <> "{}".
Proof.
  unfold entryString. rewrite !string_app_assoc.
  destruct k as [|c1 [|c2 [|c3 k]]]; intros H; discriminate H.
Qed.

(** X1. The cache key is never empty, and it is ["{}"] exactly when the
    props have no entry with a value other than [undefined]: absent props,
    the empty object and an object of [undefined] entries share the key of
    the call without arguments. *)
Theorem createCacheKey_braces (props : obj value) :
  Obj.wf props ->
  createCacheKey None = "{}"
  /\ createCacheKey (Some props) <> ""
  /\ (createCacheKey (Some props) = "{}" <-> definedPairs props = []).
Proof.
  intros Hwf. rewrite createCacheKey_spec by done. unfold cacheKeySpec.
  destruct (merge_sort String.le (Obj.keys (definedPairs props)))
    as [|k ks] eqn:Hsorted.
  - assert (Hnil : definedPairs props = []).
    { pose proof (merge_sort_Permutation String.le (Obj.keys (definedPairs props)))
        as Hperm.
      rewrite Hsorted in Hperm. apply Permutation_nil_l in Hperm.
      by destruct (definedPairs props). }
    by split_and!.
  - assert (Hne : definedPairs props <> []).
    { intros Hnil. rewrite Hnil in Hsorted. discriminate Hsorted. }
    split_and!; [done| |].
    + simpl. intros [H _]%string_app_nil_inv. by apply entryString_nonempty in H.
    + simpl. split; [|done]. intros H. by apply entryString_not_braces in H.
Qed.

Lemma createCacheKey_braces_witness :
  createCacheKey (Some [("size", VUndefined); ("tone", VUndefined)]) = "{}".
Proof.
  destruct (createCacheKey_braces [("size", VUndefined); ("tone", VUndefined)])
    as (_ & _ & Hiff).
  - decide_by_compute.
  - by apply Hiff.
Defined.

(** ** The variant resolver *)

Section engine_more.
Variable defaultTokens : DefaultTokens.
Variable inputTheme : option (obj value).
Variable inputUtils : UtilsConfig.

Local Abbreviation computeStyles' :=
  (computeStyles defaultTokens inputTheme inputUtils).
Local Abbreviation recompute' := (recompute defaultTokens inputTheme inputUtils).

(** X2. A call only sees the values of its props through [String]: two
    props objects with the same keys in the same order whose values are
    [stringifiable] and are both [undefined] or stringify alike (the number
    [1] and the string ["1"], [null] and ["null"], a boolean and its label)
    have the same cache key and are the same call, from any store. *)
Theorem computeStyles_stringly d t props1 props2 st :
  Forall (fun kv => stringifiable kv.2) props1 ->
  Forall (fun kv => stringifiable kv.2) props2 ->
  Forall2
    (fun kv1 kv2 =>
       kv1.1 = kv2.1
       /\ is_undefined kv1.2 = is_undefined kv2.2
       /\ toString kv1.2 = toString kv2.2)
    props1 props2 ->
  createCacheKey (Some props1) = createCacheKey (Some props2)
  /\ computeStyles' d (Some {| theme := t; variantProps := props1 |}) st
     = computeStyles' d (Some {| theme := t; variantProps := props2 |}) st.
Proof.
  intros _ _ Hprops.
  assert (Hnorm : normEqProps props1 props2).
  { eapply Forall2_impl; [exact Hprops|]. intros kv1 kv2 (Hk & Hu & Hs).
    split; [done|]. split; [done|]. by rewrite !normalizeVariantValue_toString. }
  split; [by apply createCacheKey_normEq|].
  apply computeStyles_ext; [done|by apply createCacheKey_normEq|].
  by apply recompute_selEquiv.
Qed.

End engine_more.

Lemma computeStyles_stringly_witness :
  computeStyles sampleTokens sampleTheme sampleUtils buttonDecl
    (Some {| theme := None; variantProps := [("size", VNum 1); ("tone", VNull)] |})
    buttonStore
  = computeStyles sampleTokens sampleTheme sampleUtils buttonDecl
      (Some {| theme := None;
               variantProps := [("size", VStr "1"); ("tone", VStr "null")] |})
      buttonStore.
Proof.
  apply (computeStyles_stringly sampleTokens sampleTheme sampleUtils buttonDecl None
           [("size", VNum 1); ("tone", VNull)]
           [("size", VStr "1"); ("tone", VStr "null")]).
  - decide_by_compute.
  - decide_by_compute.
  - repeat constructor.
Defined.

Lemma fold_left_ext_elem_of {A B} (f g : A -> B -> A) (l : list B) (a : A) :
  (forall acc x, x ∈ l -> f acc x = g acc x) -> fold_left f l a = fold_left g l a.
Proof.
  revert a. induction l as [|x l IH]; intros a Hfg; simpl; [done|].
  rewrite Hfg by left. apply IH. intros acc y Hy. apply Hfg. by right.
Qed.

Lemma forallb_ext_elem_of {A} (f g : A -> bool) (l : list A) :
  (forall x, x ∈ l -> f x = g x) -> forallb f l = forallb g l.
Proof.
  induction l as [|x l IH]; intros Hfg; simpl; [done|].
  rewrite Hfg by left. f_equal. apply IH. intros y Hy. apply Hfg. by right.
Qed.

(** X3. The style of a slot depends on the selections only at the declared
    axes and at the axes the compound variants name: a selection for an
    axis the configuration does not mention is ignored. *)
Theorem computeSlotStyles_ignores_undeclared slot base variants compoundVariants
    (props1 props2 : obj value) :
  (forall axis, axis ∈ Obj.keys variants -> Obj.get axis props1 = Obj.get axis props2) ->
  (forall cv axis,
     cv ∈ compoundVariants -> axis ∈ Obj.keys (conditions cv) ->
     Obj.get axis props1 = Obj.get axis props2) ->
  computeSlotStyles slot base variants compoundVariants props1
  = computeSlotStyles slot base variants compoundVariants props2.
Proof.
  intros Hvariants Hcompounds. unfold computeSlotStyles, applyVariant, applyCompound.
  f_equal. f_equal. f_equal; [|f_equal].
  - apply fold_left_ext_elem_of. intros style [variantKey variantConfig] Hin.
    rewrite (Hvariants variantKey); [done|].
    by apply (list_elem_of_fmap_2 fst) in Hin.
  - apply fold_left_ext_elem_of. intros style cv Hcv.
    assert (Hmatch : isMatch (conditions cv) props1 = isMatch (conditions cv) props2).
    { apply forallb_ext_elem_of. intros [condKey condValue] Hin.
      rewrite (Hcompounds cv condKey Hcv); [done|].
      by apply (list_elem_of_fmap_2 fst) in Hin. }
    by rewrite Hmatch.
Qed.

Lemma computeSlotStyles_ignores_undeclared_witness :
  computeSlotStyles "root" buttonBase buttonVariants buttonCompounds
    [("size", VStr "lg"); ("elevation", VNum 3)]
  = computeSlotStyles "root" buttonBase buttonVariants buttonCompounds
      [("size", VStr "lg")].
Proof.
  apply computeSlotStyles_ignores_undeclared.
  - intros axis Haxis. change (axis ∈ ["size"; "square"]) in Haxis.
    rewrite !elem_of_cons, elem_of_nil in Haxis.
    by destruct Haxis as [->|[->|[]]].
  - intros cv axis Hcv Haxis. apply list_elem_of_singleton in Hcv as ->.
    change (axis ∈ ["size"; "square"]) in Haxis.
    rewrite !elem_of_cons, elem_of_nil in Haxis.
    by destruct Haxis as [->|[->|[]]].
Defined.

(** X4. When the property names of the style maps a slot draws from are
    [ordinaryKey]s, the style map of the slot has pairwise distinct
    property names, and they come in order of first appearance: those of
    the base style, then those of the matching axes, then those of the
    matching compound variants. *)
Theorem computeSlotStyles_keys slot base variants compoundVariants props :
  Forall (fun style => Forall ordinaryKey (Obj.keys style))
         (default [] (mjoin (Obj.get slot base))
            :: matchingVariantStyles slot variants props
            ++ matchingCompoundStyles slot compoundVariants props) ->
  Obj.wf (computeSlotStyles slot base variants compoundVariants props)
  /\ Obj.keys (computeSlotStyles slot base variants compoundVariants props)
     = Obj.extend []
         (mjoin (Obj.keys <$>
                   (default [] (mjoin (Obj.get slot base))
                      :: matchingVariantStyles slot variants props
                      ++ matchingCompoundStyles slot compoundVariants props))).
Proof.
  intros _. rewrite computeSlotStyles_spread. split; [apply obj_wf_spread|].
  unfold Obj.spread. by rewrite obj_keys_fold_assign.
Qed.

Lemma computeSlotStyles_keys_witness :
  Obj.keys
    (computeSlotStyles "root" buttonBase buttonVariants buttonCompounds
       [("size", VStr "lg"); ("square", VBool true)])
  = ["padding"; "width"; "height"].
Proof.
  destruct (computeSlotStyles_keys "root" buttonBase buttonVariants buttonCompounds
              [("size", VStr "lg"); ("square", VBool true)]) as [_ Hkeys].
  - decide_by_compute.
  - by rewrite Hkeys.
Defined.

Lemma obj_elem_of_keys_spread {A} (parts : list (obj A)) k :
  k ∈ Obj.keys (Obj.spread parts) <-> exists part, part ∈ parts /\ k ∈ Obj.keys part.
Proof.
  unfold Obj.spread. rewrite obj_keys_fold_assign, obj_elem_of_extend, elem_of_nil.
  rewrite list_elem_of_join. split.
  - intros [[]|(ks & Hk & Hks)].
    apply list_elem_of_fmap in Hks as (part & -> & Hpart). eauto.
  - intros (part & Hpart & Hk). right. exists (Obj.keys part).
    split; [done|]. by apply list_elem_of_fmap_2.
Qed.

(** X5. A compound variant without conditions matches every selection:
    each property of its [css[slot]] is a property of the slot's style,
    and when it is the last compound variant its values are the final
    ones. *)
Theorem computeSlotStyles_unconditional slot base variants compoundVariants cv
    (style : obj value) props :
  conditions cv = [] -> cssFor cv slot = Some style -> Obj.wf style ->
  (cv ∈ compoundVariants ->
   forall p, p ∈ Obj.keys style ->
     p ∈ Obj.keys (computeSlotStyles slot base variants compoundVariants props))
  /\ (forall p v,
        Obj.get p style = Some v ->
        Obj.get p (computeSlotStyles slot base variants (compoundVariants ++ [cv]) props)
        = Some v).
Proof.
  intros Hcond Hcss Hwf. split.
  - intros Hcv p Hp. rewrite computeSlotStyles_spread.
    apply obj_elem_of_keys_spread. exists style. split; [|done].
    right. apply elem_of_app. right. unfold matchingCompoundStyles.
    apply list_elem_of_omap. exists cv. split; [done|]. by rewrite Hcond.
  - intros p v Hp. rewrite computeSlotStyles_spread.
    unfold matchingCompoundStyles. rewrite omap_app. simpl.
    rewrite Hcond. simpl. rewrite Hcss. simpl.
    unfold Obj.spread. rewrite app_comm_cons, app_assoc, fold_left_app. simpl.
    by rewrite obj_get_assign, Hp.
Qed.

Lemma computeSlotStyles_unconditional_witness :
  Obj.get "opacity"
    (computeSlotStyles "root" buttonBase buttonVariants
       (buttonCompounds
          ++ [{| css := Some [("root", Some [("opacity", VNum 1)])];
                 conditions := [] |}])
       [("size", VStr "sm")])
  = Some (VNum 1).
Proof.
  refine (proj2 (computeSlotStyles_unconditional "root" buttonBase buttonVariants
                   buttonCompounds
                   {| css := Some [("root", Some [("opacity", VNum 1)])];
                      conditions := [] |}
                   [("opacity", VNum 1)] [("size", VStr "sm")] _ _ _)
            "opacity" (VNum 1) _); try reflexivity.
  decide_by_compute.
Defined.



(** ** The utility expander on whole configurations *)

Lemma obj_set_fresh {A} k (v : A) (o : obj A) :
  k ∉ Obj.keys o -> Obj.set k v o = o ++ [(k, v)].
Proof.
  induction o as [|[k' v'] o IH]; intros Hk; simpl; [done|].
  apply not_elem_of_cons in Hk as [Hne Hk].
  rewrite decide_False by done. by rewrite IH.
Qed.

Lemma obj_fold_set_omap {A B} (g : string * A -> option B) (o : obj A) (acc : obj B) :
  Obj.wf o -> (forall k, k ∈ Obj.keys o -> k ∉ Obj.keys acc) ->
  fold_left
    (fun result entry =>
       match g entry with
       | Some y => Obj.set entry.1 y result
       | None => result
       end)
    o acc
  = acc ++ omap (fun entry => (fun y => (entry.1, y)) <$> g entry) o.
Proof.
  unfold Obj.wf, Obj.keys. revert acc.
  induction o as [|[k x] o IH]; intros acc Hwf Hfresh; simpl.
  - by rewrite app_nil_r.
  - change (NoDup (k :: o.*1)) in Hwf. apply NoDup_cons in Hwf as [Hk Hnd].
    destruct (g (k, x)) as [y|]; simpl.
    + rewrite obj_set_fresh by (apply Hfresh; left).
      rewrite IH, <-app_assoc; [done|done|].
      intros k' Hk'. unfold Obj.keys. rewrite fmap_app, elem_of_app.
      intros [Hacc|Hin%list_elem_of_singleton].
      * by apply (Hfresh k'); [right|].
      * simpl in Hin. by subst.
    + apply IH; [done|]. intros k' Hk'. apply Hfresh. by right.
Qed.

Lemma obj_fold_set_fmap {A B} (f : string * A -> B) (o : obj A) :
  Obj.wf o ->
  fold_left (fun result entry => Obj.set entry.1 (f entry) result) o []
  = (fun entry => (entry.1, f entry)) <$> o.
Proof.
  intros Hwf.
  etrans; [apply (obj_fold_set_omap (fun entry => Some (f entry)) o []);
           [done|by intros k _ ?%elem_of_nil]|].
  simpl. clear Hwf. induction o as [|e o IH]; simpl; [done|]. by f_equal.
Qed.

Lemma obj_get_fmap {A B} (f : string * A -> B) (o : obj A) k :
  Obj.get k ((fun entry => (entry.1, f entry)) <$> o)
  = (fun x => f (k, x)) <$> Obj.get k o.
Proof.
  induction o as [|[k' x] o IH]; simpl; [done|].
  case_decide; [by subst|done].
Qed.

Lemma expandSlots_fmap (o : obj (option (obj value))) utils :
  Obj.wf o ->
  expandSlots o utils
  = (fun entry => (entry.1, Some (expandUtils entry.2 utils))) <$> o.
Proof.
  intros Hwf. unfold expandSlots.
  rewrite (fold_left_ext _
             (fun result entry =>
                Obj.set entry.1 (Some (expandUtils entry.2 utils)) result))
    by (by intros acc [slot style]).
  by rewrite (obj_fold_set_fmap (fun entry => Some (expandUtils entry.2 utils))).
Qed.



Lemma expandSlots_get (o : obj (option (obj value))) utils slot :
  Obj.wf o ->
  mjoin (Obj.get slot (expandSlots o utils))
  = (fun style => expandUtils style utils) <$> Obj.get slot o.
Proof.
  intros Hwf. rewrite expandSlots_fmap by done.
  rewrite (obj_get_fmap (fun entry => Some (expandUtils entry.2 utils))).
  by destruct (Obj.get slot o).
Qed.

(** Merging the expanded style of a slot entry is merging the expansion of
    the style the entry contributes. *)
Lemma expanded_entry_assign (entry : option (option (obj value))) utils
    (acc : obj value) :
  fold_left Obj.assign
    (option_list ((fun style => expandUtils style utils) <$> entry)) acc
  = fold_left Obj.assign
      ((fun style => expandUtils (Some style) utils) <$> option_list (mjoin entry))
      acc.
Proof. by destruct entry as [[style|]|]. Qed.

Lemma expandLabels_fmap (labels : obj (obj (option (obj value)))) utils :
  Obj.wf labels ->
  fold_left
    (fun values '(valueKey, slots) => Obj.set valueKey (expandSlots slots utils) values)
    labels []
  = (fun entry => (entry.1, expandSlots entry.2 utils)) <$> labels.
Proof.
  intros Hwf.
  rewrite (fold_left_ext _
             (fun values entry =>
                Obj.set entry.1 (expandSlots entry.2 utils) values))
    by (by intros acc [valueKey slots]).
  by rewrite (obj_fold_set_fmap (fun entry => expandSlots entry.2 utils)).
Qed.

Lemma styleForValue_expanded (labels : obj (obj (option (obj value)))) utils
    label slot :
  wfLabels labels ->
  styleForValue ((fun entry => (entry.1, expandSlots entry.2 utils)) <$> labels)
    label slot
  = match Obj.get label labels with
    | Some slots => (fun style => expandUtils style utils) <$> Obj.get slot slots
    | None => None
    end.
Proof.
  intros [Hwf Hall]. unfold styleForValue.
  rewrite (obj_get_fmap (fun entry => expandSlots entry.2 utils)).
  destruct (Obj.get label labels) as [slots|] eqn:Hget; simpl; [|done].
  apply expandSlots_get. apply obj_get_elem_of in Hget.
  rewrite Forall_forall in Hall. by destruct (Hall _ Hget).
Qed.

Lemma expandVariantsUtils_omap (variants : obj (option (obj (obj (option (obj value))))))
    utils :
  wfVariants variants ->
  expandVariantsUtils (Some variants) utils
  = omap
      (fun entry : string * option (obj (obj (option (obj value)))) =>
         (fun labels : obj (obj (option (obj value))) =>
            (entry.1,
             Some ((fun label => (label.1, expandSlots label.2 utils)) <$> labels)))
         <$> entry.2)
      variants.
Proof.
  intros [Hwf Hall]. unfold expandVariantsUtils.
  rewrite (fold_left_ext_elem_of _
             (fun result entry =>
                match (fun labels : obj (obj (option (obj value))) =>
                         Some ((fun label => (label.1, expandSlots label.2 utils))
                                 <$> labels)) <$> entry.2 with
                | Some y => Obj.set entry.1 y result
                | None => result
                end)).
  - rewrite obj_fold_set_omap; [|done|by intros k _ ?%elem_of_nil]. simpl.
    clear. induction variants as [|[axis [labels|]] variants IH]; simpl;
      [done|by f_equal|done].
  - intros acc [axis [labels|]] Hin; simpl; [|done].
    rewrite Forall_forall in Hall. destruct (Hall _ Hin) as [Hlabels _].
    by rewrite expandLabels_fmap.
Qed.

Lemma matchingVariantStyles_expanded
    (variants : obj (option (obj (obj (option (obj value)))))) utils slot props
    (acc : obj value) :
  wfVariants variants ->
  fold_left Obj.assign
    (matchingVariantStyles slot (expandVariantsUtils (Some variants) utils) props) acc
  = fold_left Obj.assign
      ((fun style => expandUtils (Some style) utils)
         <$> matchingVariantStyles slot variants props) acc.
Proof.
  intros Hwf. rewrite expandVariantsUtils_omap by done.
  destruct Hwf as [_ Hall]. unfold matchingVariantStyles. revert acc.
  induction variants as [|[axis cfg] variants IH]; intros acc; [done|].
  apply Forall_cons in Hall as [Hcfg Hall]. specialize (IH Hall).
  destruct cfg as [labels|]; simpl;
    (destruct (Obj.get axis props) as [selected|]; simpl; [|by apply IH]);
    (destruct (is_undefined selected); [by apply IH|]); [|by apply IH].
  rewrite styleForValue_expanded by done. unfold styleForValue.
  destruct (Obj.get (normalizeVariantValue selected) labels) as [slots|];
    simpl; [|by apply IH].
  destruct (Obj.get slot slots) as [[style|]|]; simpl; by rewrite IH.
Qed.

Lemma cssFor_expanded cv utils slot :
  wfOpt wfSlots (css cv) ->
  cssFor
    {| css := Some match css cv with
                   | Some table => expandSlots table utils
                   | None => []
                   end;
       conditions := conditions cv |} slot
  = (fun style => expandUtils style utils)
      <$> match css cv with
          | Some table => Obj.get slot table
          | None => None
          end.
Proof.
  unfold cssFor. simpl. destruct (css cv) as [table|]; simpl; [|done].
  intros [Hwf _]. by apply expandSlots_get.
Qed.

Lemma matchingCompoundStyles_expanded (compoundVariants : list CompoundVariant)
    utils slot props (acc : obj value) :
  wfCompounds compoundVariants ->
  fold_left Obj.assign
    (matchingCompoundStyles slot
       (expandCompoundUtils (Some compoundVariants) utils) props) acc
  = fold_left Obj.assign
      ((fun style => expandUtils (Some style) utils)
         <$> matchingCompoundStyles slot compoundVariants props) acc.
Proof.
  unfold wfCompounds, matchingCompoundStyles.
  set (E := fun style => expandUtils (Some style) utils).
  cbn [expandCompoundUtils]. revert acc.
  induction compoundVariants as [|cv cvs IH]; intros acc Hall; [done|].
  apply Forall_cons in Hall as [Hcv Hall].
  assert (IH' := fun acc => IH acc Hall). clear IH. rename IH' into IH.
  cbn [map omap list_omap fmap list_fmap conditions].
  destruct (isMatch (conditions cv) props); [|by apply IH].
  rewrite cssFor_expanded by done. unfold cssFor.
  destruct (css cv) as [table|]; [|by apply IH].
  destruct (Obj.get slot table) as [[style|]|]; simpl; by rewrite IH.
Qed.

Lemma computeSlotStyles_expandUtils slot (config : Config) utils props :
  wfConfig config ->
  computeSlotStyles slot
    (expandBaseUtils (base config) utils)
    (expandVariantsUtils (variants config) utils)
    (expandCompoundUtils (compoundVariants config) utils) props
  = Obj.spread
      ((fun style => expandUtils (Some style) utils) <$> slotSources slot config props).
Proof.
  intros (Hbase & Hvariants & Hcompounds).
  rewrite computeSlotStyles_spread. unfold slotSources, Obj.spread.
  rewrite fmap_cons, fmap_app. cbn [fold_left]. rewrite !fold_left_app.
  assert (Hb : default [] (mjoin (Obj.get slot (expandBaseUtils (base config) utils)))
               = expandUtils
                   (Some (default [] (mjoin (Obj.get slot (default [] (base config))))))
                   utils).
  { destruct (base config) as [b|]; simpl; [|done].
    destruct Hbase as [Hwf _]. rewrite expandSlots_get by done.
    by destruct (Obj.get slot b) as [[style|]|]. }
  rewrite Hb.
  assert (Hv : forall acc,
    fold_left Obj.assign
      (matchingVariantStyles slot (expandVariantsUtils (variants config) utils) props)
      acc
    = fold_left Obj.assign
        ((fun style => expandUtils (Some style) utils)
           <$> matchingVariantStyles slot (default [] (variants config)) props) acc).
  { intros acc. destruct (variants config) as [v|]; [|done].
    by apply matchingVariantStyles_expanded. }
  assert (Hc : forall acc,
    fold_left Obj.assign
      (matchingCompoundStyles slot
         (expandCompoundUtils (compoundVariants config) utils) props) acc
    = fold_left Obj.assign
        ((fun style => expandUtils (Some style) utils)
           <$> matchingCompoundStyles slot (default [] (compoundVariants config)) props)
        acc).
  { intros acc. destruct (compoundVariants config) as [c|]; [|done].
    by apply matchingCompoundStyles_expanded. }
  by rewrite Hv, Hc.
Qed.



Lemma wfSlots_get (table : obj (option (obj value))) slot style :
  wfSlots table -> Obj.get slot table = Some (Some style) -> Obj.wf style.
Proof.
  intros [_ Hall] Hget. apply obj_get_elem_of in Hget.
  rewrite Forall_forall in Hall. exact (Hall _ Hget).
Qed.

(** The style maps a slot draws from a configuration written as object
    literals are objects. *)
Lemma slotSources_wf slot config props :
  wfConfig config -> Forall Obj.wf (slotSources slot config props).
Proof.
  intros (Hbase & Hvariants & Hcompounds). unfold slotSources.
  apply Forall_cons. split; [|apply Forall_app; split].
  - destruct (base config) as [b|]; simpl; [|apply NoDup_nil_2].
    destruct (Obj.get slot b) as [[style|]|] eqn:Hget; simpl;
      [by eapply wfSlots_get|apply NoDup_nil_2..].
  - destruct (variants config) as [v|]; simpl; [|constructor].
    apply Forall_forall. intros style Hstyle. unfold matchingVariantStyles in Hstyle.
    apply list_elem_of_omap in Hstyle as ([axis cfg] & Hin & Hstyle).
    destruct (Obj.get axis props) as [selected|]; simpl in Hstyle; [|done].
    destruct (is_undefined selected); [done|].
    destruct cfg as [labels|]; simpl in Hstyle; [|done].
    destruct Hvariants as [_ Hall]. rewrite Forall_forall in Hall.
    destruct (Hall _ Hin) as [_ Hlabels]. unfold styleForValue in Hstyle.
    destruct (Obj.get (normalizeVariantValue selected) labels) as [slots|] eqn:Hl;
      [|done].
    apply obj_get_elem_of in Hl. rewrite Forall_forall in Hlabels.
    apply (wfSlots_get slots slot); [exact (Hlabels _ Hl)|].
    destruct (Obj.get slot slots) as [[s|]|]; simpl in Hstyle;
      [by inversion Hstyle|done|done].
  - destruct (compoundVariants config) as [c|]; simpl; [|constructor].
    apply Forall_forall. intros style Hstyle. unfold matchingCompoundStyles in Hstyle.
    apply list_elem_of_omap in Hstyle as (cv & Hin & Hstyle).
    destruct (isMatch (conditions cv) props); [|done].
    simpl in Hcompounds. unfold wfCompounds in Hcompounds.
    rewrite Forall_forall in Hcompounds.
    specialize (Hcompounds _ Hin). unfold cssFor in Hstyle.
    destruct (css cv) as [table|]; [|done].
    apply (wfSlots_get table slot); [exact Hcompounds|].
    destruct (Obj.get slot table) as [[s|]|]; simpl in Hstyle;
      [by inversion Hstyle|done|done].
Qed.

Lemma slotStylesOf_get (table : obj (option (obj value))) slot style :
  Obj.get slot table = Some (Some style) -> style ∈ slotStylesOf table.
Proof.
  intros Hget. apply obj_get_elem_of in Hget. unfold slotStylesOf.
  apply list_elem_of_omap. by exists (slot, Some style).
Qed.

(** A style map a slot draws from a configuration is written in the
    configuration, or is the empty map standing for a missing base style. *)
Lemma slotSources_stylesOf slot config props style :
  style ∈ slotSources slot config props -> style = [] \/ style ∈ stylesOf config.
Proof.
  unfold slotSources, stylesOf. rewrite elem_of_cons, !elem_of_app.
  intros [->|[Hstyle|Hstyle]].
  - destruct (Obj.get slot (default [] (base config))) as [[style|]|] eqn:Hget;
      simpl; [|by left..].
    right. left. by eapply slotStylesOf_get.
  - right. right. left. unfold matchingVariantStyles in Hstyle.
    apply list_elem_of_omap in Hstyle as ([axis cfg] & Hin & Hstyle).
    destruct (Obj.get axis props) as [selected|]; simpl in Hstyle; [|done].
    destruct (is_undefined selected); [done|].
    destruct cfg as [labels|]; simpl in Hstyle; [|done].
    unfold styleForValue in Hstyle.
    destruct (Obj.get (normalizeVariantValue selected) labels) as [slots|] eqn:Hl;
      [|done].
    apply obj_get_elem_of in Hl. apply list_elem_of_bind. exists labels. split.
    + apply list_elem_of_bind. exists slots. split.
      * destruct (Obj.get slot slots) as [[s|]|] eqn:Hs; simpl in Hstyle;
          [|done..]. injection Hstyle as <-. by eapply slotStylesOf_get.
      * by apply (list_elem_of_fmap_2 snd) in Hl.
    + apply list_elem_of_omap. by exists (axis, Some labels).
  - right. right. right. unfold matchingCompoundStyles in Hstyle.
    apply list_elem_of_omap in Hstyle as (cv & Hin & Hstyle).
    destruct (isMatch (conditions cv) props); [|done].
    unfold cssFor in Hstyle. apply list_elem_of_bind. exists cv. split; [|done].
    destruct (css cv) as [table|]; [|done]. simpl.
    destruct (Obj.get slot table) as [[s|]|] eqn:Hs; simpl in Hstyle; [|done..].
    injection Hstyle as <-. by eapply slotStylesOf_get.
Qed.

Lemma expandUtils_no_utils (style : obj value) :
  Obj.wf style -> Forall (fun k => k ∉ objectPrototypeNames) (Obj.keys style) ->
  expandUtils (Some style) [] = style.
Proof.
  intros Hwf Hown. rewrite expandUtils_spread.
  - rewrite contribution_plain by done.
    unfold Obj.spread. rewrite obj_assign_singletons. by apply obj_assign_nil.
  - intros k Hk _. rewrite Forall_forall in Hown. by apply Hown.
Qed.



(** ** Sequences of calls *)

Lemma lookup_insert_nested_mono `{Countable K} (m : gmap K (gmap string nat))
    (c c' : K) (key key' : string) (x r : nat) :
  m !! c ≫= (.!! key) = None ->
  m !! c' ≫= (.!! key') = Some r ->
  <[c := <[key := x]> (default ∅ (m !! c))]> m !! c' ≫= (.!! key') = Some r.
Proof.
  intros Hmiss Hr. destruct (decide (c' = c)) as [->|Hc].
  - rewrite lookup_insert_eq. simpl.
    destruct (m !! c) as [inner|]; simpl in *; [|done].
    rewrite lookup_insert_ne; [done|]. intros ->. congruence.
  - by rewrite lookup_insert_ne.
Qed.

Section engine_traces.
Variable defaultTokens : DefaultTokens.
Variable inputTheme : option (obj value).
Variable inputUtils : UtilsConfig.

Local Abbreviation computeStyles' :=
  (computeStyles defaultTokens inputTheme inputUtils).
Local Abbreviation recompute' := (recompute defaultTokens inputTheme inputUtils).
Local Abbreviation styled' := (styled defaultTokens inputTheme inputUtils).
Local Abbreviation reachable' := (reachable defaultTokens inputTheme inputUtils).
Local Abbreviation runOp' := (runOp defaultTokens inputTheme inputUtils).
Local Abbreviation runOps' := (runOps defaultTokens inputTheme inputUtils).
Local Abbreviation themedResult' :=
  (themedResult defaultTokens inputTheme inputUtils).

Lemma computeStyles_caches_mono d props st :
  (forall ref key r,
     instanceCache st !! ref ≫= (.!! key) = Some r ->
     instanceCache (computeStyles' d props st).2 !! ref ≫= (.!! key) = Some r)
  /\ (forall ref key r,
        themeOverrideCache st !! ref ≫= (.!! key) = Some r ->
        themeOverrideCache (computeStyles' d props st).2 !! ref ≫= (.!! key) = Some r).
Proof.
  unfold computeStyles.
  destruct (props ≫= theme) as [t|], (configOrFactory d) as [c|f]; simpl.
  all: match goal with
       | |- context [match ?look with Some _ => _ | None => _ end] =>
           destruct look eqn:Hlook; simpl; [done|]
       end.
  all: split; intros ref key r Hr; try done.
  all: by apply lookup_insert_nested_mono.
Qed.

Lemma runOp_caches_mono op st :
  (forall ref key r,
     instanceCache st !! ref ≫= (.!! key) = Some r ->
     instanceCache (runOp' st op) !! ref ≫= (.!! key) = Some r)
  /\ (forall ref key r,
        themeOverrideCache st !! ref ≫= (.!! key) = Some r ->
        themeOverrideCache (runOp' st op) !! ref ≫= (.!! key) = Some r)
  /\ heap st `prefix_of` heap (runOp' st op).
Proof.
  destruct op as [c|d props| |config|d props]; simpl.
  - done.
  - destruct (computeStyles_caches_mono d props st) as [Hi Ht].
    split_and!; [done..|].
    destruct (computeStyles_cases defaultTokens inputTheme inputUtils d props st)
      as [(r & _ & ->)|(_ & _ & -> & _)]; [done|]. by apply prefix_app_r.
  - done.
  - done.
  - unfold standalone.computeStyles.
    destruct (styleCache st !! standalone.s_configRef d ≫= _);
      simpl; split_and!; try done. by apply prefix_app_r.
Qed.

Lemma runOps_caches_mono ops st :
  (forall ref key r,
     instanceCache st !! ref ≫= (.!! key) = Some r ->
     instanceCache (runOps' ops st) !! ref ≫= (.!! key) = Some r)
  /\ (forall ref key r,
        themeOverrideCache st !! ref ≫= (.!! key) = Some r ->
        themeOverrideCache (runOps' ops st) !! ref ≫= (.!! key) = Some r)
  /\ heap st `prefix_of` heap (runOps' ops st).
Proof.
  unfold runOps. revert st. induction ops as [|op ops IH]; intros st; simpl; [done|].
  destruct (runOp_caches_mono op st) as (Hi & Ht & Hh).
  destruct (IH (runOp' st op)) as (Hi' & Ht' & Hh').
  split_and!; [by eauto..|by etrans].
Qed.

(** X10. Cache entries are never overwritten or evicted and result objects
    are never modified: once a call has returned a reference, the same call
    returns that reference after any sequence of [styled], [computeStyles]
    (of this or the standalone kind) and [clearStyleCache] operations, and
    every object of the heap is still there unchanged. *)
Theorem computeStyles_stable d props st ops :
  computeStyles defaultTokens inputTheme inputUtils d props
    (runOps defaultTokens inputTheme inputUtils ops (computeStyles' d props st).2)
  = ((computeStyles' d props st).1,
     runOps defaultTokens inputTheme inputUtils ops (computeStyles' d props st).2)
  /\ (forall ref result,
        heap st !! ref = Some result ->
        heap (runOps defaultTokens inputTheme inputUtils ops st) !! ref = Some result).
Proof.
  split.
  - apply computeStyles_hit.
    pose proof (cacheLookup_after defaultTokens inputTheme inputUtils d props st)
      as Hlook.
    destruct (runOps_caches_mono ops (computeStyles' d props st).2) as (Hi & Ht & _).
    revert Hlook. unfold cacheLookup.
    destruct (props ≫= theme) as [t|], (configOrFactory d) as [c|f]; auto.
  - intros ref result Href.
    destruct (runOps_caches_mono ops st) as (_ & _ & Hprefix).
    by eapply prefix_lookup_Some.
Qed.

(** X11. Declarations do not share cache entries: in a reachable store, a
    call on one declaration changes neither the cache entry another
    declaration consults nor the content the other declaration's call
    returns. *)
Theorem computeStyles_isolated ds st d1 d2 props1 props2 :
  reachable' ds st -> d1 ∈ ds -> d2 ∈ ds -> d1 <> d2 ->
  cacheLookup d2 props2 (computeStyles' d1 props1 st).2 = cacheLookup d2 props2 st
  /\ heap (computeStyles' d2 props2 (computeStyles' d1 props1 st).2).2
       !! (computeStyles' d2 props2 (computeStyles' d1 props1 st).2).1
     = heap (computeStyles' d2 props2 st).2 !! (computeStyles' d2 props2 st).1.
Proof.
  intros Hreach Hd1 Hd2 Hne.
  pose proof (reachable_cacheInv _ _ _ _ _ Hreach) as Hinv.
  assert (Href : configRef d1 <> configRef d2).
  { intros Href. apply Hne. by eapply cacheInv_configRef_inj. }
  assert (Hlook : cacheLookup d2 props2 (computeStyles' d1 props1 st).2
                  = cacheLookup d2 props2 st).
  { unfold cacheLookup, computeStyles.
    destruct (props1 ≫= theme) as [t1|], (configOrFactory d1) as [c1|f1]; simpl.
    all: match goal with
         | |- context [match ?look with Some _ => _ | None => _ end] =>
             destruct look eqn:Hmiss; simpl; [done|]
         end.
    all: destruct (props2 ≫= theme) as [t2|], (configOrFactory d2) as [c2|f2];
      try done.
    all: rewrite lookup_insert_ne; [done|congruence]. }
  split; [done|].
  destruct (cacheLookup d2 props2 st) as [r|] eqn:Hhit.
  - rewrite (computeStyles_hit _ _ _ d2 props2 _ r) by done.
    rewrite (computeStyles_hit _ _ _ d2 props2 st r) by done. simpl.
    assert (Hvalid : is_Some (heap st !! r)).
    { destruct Hinv as (_ & _ & Hinst & Htheme). unfold cacheLookup in Hhit.
      destruct (props2 ≫= theme) as [t2|], (configOrFactory d2) as [c2|f2];
        [destruct (Hinst _ _ _ Hhit) as (? & ? & ? & ? & ? & ?)
        |destruct (Htheme _ _ _ _ Hhit) as (? & ? & ? & ? & ? & ?)
        |destruct (Hinst _ _ _ Hhit) as (? & ? & ? & ? & ? & ?)
        |destruct (Hinst _ _ _ Hhit) as (? & ? & ? & ? & ? & ?)]; eauto. }
    destruct Hvalid as [result Hresult]. rewrite Hresult.
    destruct (computeStyles_cases defaultTokens inputTheme inputUtils d1 props1 st)
      as [(r1 & _ & ->)|(_ & _ & -> & _)]; [done|].
    by apply lookup_app_l_Some.
  - destruct (computeStyles_miss defaultTokens inputTheme inputUtils d2 props2 st Hhit)
      as [-> ->].
    destruct (computeStyles_miss defaultTokens inputTheme inputUtils d2 props2 _ Hlook)
      as [-> ->].
    by rewrite !list_lookup_middle.
Qed.

(** X12. A new declaration starts with an empty cache partition: in a
    reachable store, the first call of the closure [styled] has just
    returned is a miss whatever its props, so its result is the resolver's
    computation for these props. *)
Theorem styled_fresh ds st c props :
  reachable' ds st ->
  cacheLookup (styled' c st).1 props (styled' c st).2 = None
  /\ heap (computeStyles' (styled' c st).1 props (styled' c st).2).2
       !! (computeStyles' (styled' c st).1 props (styled' c st).2).1
     = Some (recompute' (styled' c st).1 props).
Proof.
  intros Hreach.
  destruct (reachable_cacheInv _ _ _ _ _ Hreach) as (_ & Hfresh & Hinst & Htheme).
  assert (Hmiss : cacheLookup (styled' c st).1 props (styled' c st).2 = None).
  { destruct (cacheLookup _ props _) as [r|] eqn:Hlook; [exfalso|done].
    unfold cacheLookup in Hlook. simpl in Hlook.
    assert (Hentry : exists d0, d0 ∈ ds /\ configRef d0 = nextRef st).
    { destruct (props ≫= theme) as [t|], c as [cfg|f]; simpl in Hlook;
        [destruct (Hinst _ _ _ Hlook) as (d0 & ? & ? & ? & _)
        |destruct (Htheme _ _ _ _ Hlook) as (d0 & ? & ? & ? & _)
        |destruct (Hinst _ _ _ Hlook) as (d0 & ? & ? & ? & _)
        |destruct (Hinst _ _ _ Hlook) as (d0 & ? & ? & ? & _)]; eauto. }
    destruct Hentry as (d0 & Hd0 & Href). apply Hfresh in Hd0. lia. }
  split; [done|].
  destruct (computeStyles_miss defaultTokens inputTheme inputUtils _ props _ Hmiss)
    as [-> ->].
  by rewrite list_lookup_middle.
Qed.

End engine_traces.

Lemma computeStyles_isolated_witness :
  cacheLookup badgeDecl None
    (computeStyles sampleTokens sampleTheme sampleUtils buttonDecl None badgeStore).2
  = cacheLookup badgeDecl None badgeStore.
Proof.
  refine (proj1 (computeStyles_isolated sampleTokens sampleTheme sampleUtils
                   [buttonDecl; badgeDecl] badgeStore buttonDecl badgeDecl None None
                   _ _ _ _)).
  - exact (reach_styled sampleTokens sampleTheme sampleUtils [buttonDecl] buttonStore
             (inr badgeFactory)
             (reach_styled sampleTokens sampleTheme sampleUtils [] emptyStore
                (inl buttonConfig) (reach_init _ _ _))).
  - left.
  - right. left.
  - intros Heq. apply (f_equal configRef) in Heq. vm_compute in Heq. lia.
Defined.

Lemma styled_fresh_witness :
  cacheLookup badgeDecl None badgeStore = None.
Proof.
  refine (proj1 (styled_fresh sampleTokens sampleTheme sampleUtils
                   [buttonDecl] buttonStore (inr badgeFactory) None _)).
  exact (reach_styled sampleTokens sampleTheme sampleUtils [] emptyStore
           (inl buttonConfig) (reach_init _ _ _)).
Defined.

(** ** Colors and the resolved theme *)

Lemma obj_set_same {A} k (v : A) (o : obj A) :
  Obj.get k o = Some v -> Obj.set k v o = o.
Proof.
  induction o as [|[k' v'] o IH]; simpl; [done|].
  case_decide; [by intros [= ->]; subst|]. intros Hget. by rewrite IH.
Qed.

Lemma obj_get_omap {A B} (g : string * A -> option B) (o : obj A) k :
  Obj.wf o ->
  Obj.get k (omap (fun entry => (fun y => (entry.1, y)) <$> g entry) o)
  = Obj.get k o ≫= fun x => g (k, x).
Proof.
  unfold Obj.wf, Obj.keys. induction o as [|[k' x] o IH]; intros Hwf; [done|].
  change (NoDup (k' :: o.*1)) in Hwf. apply NoDup_cons in Hwf as [Hk' Hnd].
  simpl. destruct (decide (k = k')) as [->|Hne].
  - destruct (g (k', x)) as [y|] eqn:Hg; simpl; rewrite ?Hg;
      [by rewrite decide_True|].
    etrans; [exact (IH Hnd)|]. by rewrite (obj_get_None k' o).
  - destruct (g (k', x)) as [y|]; simpl; [rewrite decide_False by done|];
      exact (IH Hnd).
Qed.

Lemma extractStandaloneColors_omap (fields : obj value) :
  Obj.wf fields ->
  extractStandaloneColors (VObj fields)
  = omap
      (fun entry : string * value =>
         (fun y => (entry.1, y))
         <$> (if bool_decide (entry.1 <> "light") && bool_decide (entry.1 <> "dark")
              then match entry.2 with VStr _ => Some entry.2 | _ => None end
              else None))
      fields.
Proof.
  intros Hwf. unfold extractStandaloneColors.
  rewrite (fold_left_ext _
             (fun result (entry : string * value) =>
                match (if bool_decide (entry.1 <> "light")
                          && bool_decide (entry.1 <> "dark")
                       then match entry.2 with VStr _ => Some entry.2 | _ => None end
                       else None) with
                | Some y => Obj.set entry.1 y result
                | None => result
                end)).
  - rewrite obj_fold_set_omap; [done|done|by intros k _ ?%elem_of_nil].
  - intros acc [key v]. simpl.
    destruct (bool_decide (key <> "light") && bool_decide (key <> "dark")); [|done].
    by destruct v.
Qed.

Lemma extractStandaloneColors_wf colors : Obj.wf (extractStandaloneColors colors).
Proof.
  destruct colors as [| | | | |fields]; try apply NoDup_nil_2. simpl.
  assert (Hnil : Obj.wf (@nil (string * value))) by apply NoDup_nil_2.
  revert Hnil. generalize (@nil (string * value)).
  induction fields as [|[key v] fields IH]; intros acc Hacc; simpl; [done|].
  apply IH.
  destruct (bool_decide (key <> "light") && bool_decide (key <> "dark")); [|done].
  destruct v; try done. by apply obj_wf_set.
Qed.

Section colors.
Variable defaultTokens : DefaultTokens.
Variable inputTheme : option (obj value).

(** X13. A flat color map (an object without a [light] key) is both the
    light and the dark scheme, and the resolved [colors] are the default
    palette overridden by it. *)
Theorem colors_flat (fields : obj value) :
  optGet inputTheme "colors" = VObj fields ->
  Obj.get "light" fields = None ->
  Obj.wf fields -> Obj.wf (palette defaultTokens) ->
  colorScheme inputTheme = {| light := VObj fields; dark := VObj fields |}
  /\ forall k,
       Obj.get k (mergedColors defaultTokens inputTheme)
       = match Obj.get k fields with
         | Some v => Some v
         | None => Obj.get k (palette defaultTokens)
         end.
Proof.
  intros Hcolors Hlight Hwf Hpalette.
  unfold colorScheme, mergedColors, userColorsAndScheme.
  rewrite Hcolors. simpl. unfold Obj.has. rewrite Hlight. simpl.
  split; [done|]. intros k. by rewrite obj_spread_pair, obj_get_assign.
Qed.

(** X14. Structured colors: the standalone colors are the top-level string
    entries other than [light] and [dark]; the light scheme is the [light]
    map overridden by them, the dark scheme is the [dark] map overridden by
    them, or [undefined] without a [dark] entry, and the resolved [colors]
    are the default palette overridden by the light scheme. *)
Theorem colors_structured (fields lightMap : obj value) :
  optGet inputTheme "colors" = VObj fields ->
  Obj.get "light" fields = Some (VObj lightMap) ->
  Obj.wf fields -> Obj.wf lightMap -> Obj.wf (palette defaultTokens) ->
  (forall k,
     Obj.get k (extractStandaloneColors (VObj fields))
     = if bool_decide (k <> "light") && bool_decide (k <> "dark")
       then match Obj.get k fields with
            | Some (VStr s) => Some (VStr s)
            | _ => None
            end
       else None)
  /\ light (colorScheme inputTheme)
     = VObj (Obj.spread [lightMap; extractStandaloneColors (VObj fields)])
  /\ (forall k,
        Obj.get k (Obj.spread [lightMap; extractStandaloneColors (VObj fields)])
        = match Obj.get k (extractStandaloneColors (VObj fields)) with
          | Some v => Some v
          | None => Obj.get k lightMap
          end)
  /\ (forall darkMap,
        Obj.get "dark" fields = Some (VObj darkMap) ->
        dark (colorScheme inputTheme)
        = VObj (Obj.spread [darkMap; extractStandaloneColors (VObj fields)]))
  /\ (Obj.get "dark" fields = None -> dark (colorScheme inputTheme) = VUndefined)
  /\ (forall k,
        Obj.get k (mergedColors defaultTokens inputTheme)
        = match Obj.get k (Obj.spread [lightMap; extractStandaloneColors (VObj fields)])
          with
          | Some v => Some v
          | None => Obj.get k (palette defaultTokens)
          end).
Proof.
  intros Hcolors Hlight Hwf Hlm Hpalette.
  pose proof (extractStandaloneColors_wf (VObj fields)) as Hswf.
  split.
  { intros k. rewrite extractStandaloneColors_omap by done.
    rewrite (obj_get_omap
               (fun entry : string * value =>
                  if bool_decide (entry.1 <> "light") && bool_decide (entry.1 <> "dark")
                  then match entry.2 with VStr _ => Some entry.2 | _ => None end
                  else None)) by done.
    simpl. destruct (Obj.get k fields) as [v|]; simpl.
    + destruct (bool_decide (k <> "light") && bool_decide (k <> "dark")); [|done].
      by destruct v.
    + by destruct (bool_decide (k <> "light") && bool_decide (k <> "dark")). }
  set (standalone := extractStandaloneColors (VObj fields)) in *.
  unfold colorScheme, mergedColors, userColorsAndScheme.
  rewrite Hcolors. fold standalone. simpl. unfold Obj.has. rewrite Hlight. simpl.
  split_and!.
  - done.
  - intros k. by rewrite obj_spread_pair, obj_get_assign.
  - intros darkMap Hdark. by rewrite Hdark.
  - intros Hdark. by rewrite Hdark.
  - intros k. rewrite (obj_spread_pair (palette defaultTokens)) by done.
    rewrite obj_get_assign; [done|apply obj_wf_spread].
Qed.

End colors.

Lemma colors_flat_witness :
  colorScheme sampleTheme
  = {| light := VObj [("primary", VStr "#3b82f6")];
       dark := VObj [("primary", VStr "#3b82f6")] |}
  /\ Obj.get "blue500" (mergedColors sampleTokens sampleTheme) = Some (VStr "#3b82f6").
Proof.
  destruct (colors_flat sampleTokens sampleTheme [("primary", VStr "#3b82f6")])
    as [Hscheme Hget];
    [reflexivity|reflexivity|decide_by_compute|decide_by_compute|].
  split; [exact Hscheme|]. by rewrite Hget.
Defined.

Lemma colors_structured_witness :
  light (colorScheme schemeTheme)
  = VObj [("background", VStr "#fff"); ("brand", VStr "#f0f")]
  /\ dark (colorScheme schemeTheme)
     = VObj [("background", VStr "#000"); ("brand", VStr "#f0f")].
Proof.
  destruct (colors_structured sampleTokens schemeTheme
              [("light", VObj [("background", VStr "#fff"); ("brand", VStr "#00f")]);
               ("dark", VObj [("background", VStr "#000")]);
               ("brand", VStr "#f0f")]
              [("background", VStr "#fff"); ("brand", VStr "#00f")])
    as (_ & Hlight & _ & Hdark & _);
    [reflexivity|reflexivity|decide_by_compute|decide_by_compute|decide_by_compute|].
  split; [exact Hlight|]. exact (Hdark [("background", VStr "#000")] eq_refl).
Defined.

Lemma resolvePropsNoTheme_resolveProps defaultVariants props :
  "theme" ∉ Obj.keys props ->
  resolvePropsNoTheme defaultVariants props = resolveProps defaultVariants props.
Proof.
  intros Hkey. unfold resolvePropsNoTheme, resolveProps.
  apply fold_left_ext_elem_of. intros acc [key v] Hin.
  rewrite (bool_decide_eq_true_2 (key <> "theme")).
  - by destruct (is_undefined v).
  - intros ->. apply Hkey. by apply (list_elem_of_fmap_2 fst) in Hin.
Qed.

Lemma obj_extend_disjoint (acc ks : list string) :
  NoDup ks -> (forall k, k ∈ ks -> k ∉ acc) -> Obj.extend acc ks = acc ++ ks.
Proof.
  induction ks as [|k ks IH] using rev_ind; intros Hnd Hdis.
  - by rewrite app_nil_r.
  - apply NoDup_app in Hnd as (Hks & Hk & _).
    rewrite obj_extend_snoc, IH;
      [|done|by intros k' Hk'; apply Hdis, elem_of_app; left].
    rewrite decide_False; [by rewrite app_assoc|].
    intros [Hin|Hin]%elem_of_app.
    + apply (Hdis k); [apply elem_of_app; right; left|done].
    + apply (Hk k); [done|left].
Qed.

Section theme_more.
Variable defaultTokens : DefaultTokens.
Variable inputTheme : option (obj value).
Variable inputUtils : UtilsConfig.

Local Abbreviation recompute' := (recompute defaultTokens inputTheme inputUtils).
Local Abbreviation styled' := (styled defaultTokens inputTheme inputUtils).

Lemma overriddenTheme_own themeOverride :
  theme_colors themeOverride = mergedColors defaultTokens inputTheme ->
  overriddenTheme defaultTokens inputTheme themeOverride
  = resolvedTheme defaultTokens inputTheme.
Proof.
  intros Hcolors. unfold overriddenTheme. rewrite Hcolors.
  change (Obj.spread [resolvedTheme defaultTokens inputTheme])
    with (Obj.assign [] (resolvedTheme defaultTokens inputTheme)).
  rewrite obj_assign_nil by apply obj_wf_spread.
  apply obj_set_same. rewrite resolvedTheme_get, customTokens_get.
  by rewrite bool_decide_eq_true_2 by decide_by_compute.
Qed.

(** X15. An override that carries the colors the engine itself resolved
    changes nothing: for a factory declaration, what a call computes under
    such an override is what the call without override computes. *)
Theorem recompute_own_colors factory st themeOverride (props : obj value) :
  theme_colors themeOverride = mergedColors defaultTokens inputTheme ->
  "theme" ∉ Obj.keys props ->
  recompute' (styled' (inr factory) st).1
    (Some {| theme := Some themeOverride; variantProps := props |})
  = recompute' (styled' (inr factory) st).1
      (Some {| theme := None; variantProps := props |}).
Proof.
  intros Hcolors Hkey. unfold recompute, themedResult, defaultResult.
  cbn [styled fst configOrFactory cl_base cl_variants cl_defaultVariants frozenSlots
       frozenCompoundVariants mbind option_bind theme variantProps fmap option_fmap
       option_map default].
  rewrite overriddenTheme_own by done.
  by rewrite resolvePropsNoTheme_resolveProps.
Qed.

Lemma customTokens_keys_fold (ks : list string) (acc : obj value) :
  Obj.keys
    (fold_left
       (fun acc key =>
          if bool_decide (key ∈ knownThemeKeys) then acc
          else Obj.set key (optGet inputTheme key) acc)
       ks acc)
  = Obj.extend (Obj.keys acc) (filter (fun key => key ∉ knownThemeKeys) ks).
Proof.
  revert acc. induction ks as [|k ks IH]; intros acc; cbn [fold_left]; [done|].
  rewrite IH, filter_cons. destruct (decide (k ∈ knownThemeKeys)) as [Hk|Hk].
  - rewrite (bool_decide_eq_true_2 _ Hk). by rewrite decide_False by tauto.
  - rewrite (bool_decide_eq_false_2 _ Hk). rewrite decide_True by done.
    by rewrite obj_keys_set.
Qed.

(** X16. For an input theme whose keys are [ordinaryKey]s, the resolved
    theme has the twelve known categories, in their fixed order, followed
    by the input's other keys in the input's order, and no other
    property. *)
Theorem resolvedTheme_keys :
  Obj.wf (default [] inputTheme) ->
  Forall ordinaryKey (Obj.keys (default [] inputTheme)) ->
  Obj.keys (resolvedTheme defaultTokens inputTheme)
  = knownThemeKeys
      ++ filter (fun key => key ∉ knownThemeKeys) (Obj.keys (default [] inputTheme)).
Proof.
  intros Hwf _. unfold resolvedTheme, Obj.spread. rewrite obj_keys_fold_assign.
  change (Obj.extend [] (knownThemeKeys ++ Obj.keys (customTokens inputTheme) ++ [])
          = knownThemeKeys
              ++ filter (fun key => key ∉ knownThemeKeys)
                   (Obj.keys (default [] inputTheme))).
  rewrite app_nil_r, obj_extend_app, obj_extend_nil by decide_by_compute.
  unfold customTokens. rewrite customTokens_keys_fold.
  change (Obj.keys (@nil (string * value))) with (@nil string).
  assert (Hnd : NoDup (filter (fun key => key ∉ knownThemeKeys)
                         (Obj.keys (default [] inputTheme))))
    by by apply NoDup_filter.
  rewrite (obj_extend_nil _ Hnd). apply obj_extend_disjoint; [done|].
  by intros k [Hk _]%list_elem_of_filter.
Qed.

End theme_more.

Lemma recompute_own_colors_witness :
  recompute sampleTokens sampleTheme sampleUtils badgeDecl
    (Some {| theme := Some ownColors; variantProps := [("tone", VStr "loud")] |})
  = recompute sampleTokens sampleTheme sampleUtils badgeDecl
      (Some {| theme := None; variantProps := [("tone", VStr "loud")] |}).
Proof.
  apply (recompute_own_colors sampleTokens sampleTheme sampleUtils badgeFactory
           buttonStore ownColors [("tone", VStr "loud")]).
  - reflexivity.
  - decide_by_compute.
Defined.

Lemma resolvedTheme_keys_witness :
  Obj.keys (resolvedTheme sampleTokens sampleTheme) = knownThemeKeys ++ ["breakpoints"].
Proof.
  rewrite (resolvedTheme_keys sampleTokens sampleTheme).
  - reflexivity.
  - decide_by_compute.
  - decide_by_compute.
Defined.

(** ** The theme provider *)

(** X17. [toggle] never leaves the mode at [system]: it pins the scheme
    opposite to the one currently shown, whatever the system preference is
    afterwards, and a second [toggle] pins the scheme that was shown at
    first instead of returning to [system]. *)
Theorem toggleMode_flips mode systemScheme systemScheme' :
  toggleMode mode systemScheme <> ModeSystem
  /\ resolveColorScheme (toggleMode mode systemScheme) systemScheme'
     <> resolveColorScheme mode systemScheme
  /\ toggleMode (toggleMode mode systemScheme) systemScheme'
     = Mode (resolveColorScheme mode systemScheme).
Proof.
  unfold toggleMode.
  destruct (resolveColorScheme mode systemScheme) eqn:Hscheme; simpl; by split_and!.
Qed.

(** X18. Fed with the [colorScheme] object of [createNVA], the provider
    reads the light colors from a property ([default]) that object does not
    have: the context colors are [undefined] whenever the light scheme is
    shown or the dark colors are missing, and the dark colors otherwise. *)
Theorem contextValue_colorScheme inputTheme mode systemScheme :
  ctx_isDark (contextValue mode systemScheme (colorSchemeObject (colorScheme inputTheme)))
  = bool_decide (resolveColorScheme mode systemScheme = SchemeDark)
  /\ ctx_colors
       (contextValue mode systemScheme (colorSchemeObject (colorScheme inputTheme)))
     = if bool_decide (resolveColorScheme mode systemScheme = SchemeDark)
          && truthy (dark (colorScheme inputTheme))
       then dark (colorScheme inputTheme)
       else VUndefined.
Proof.
  unfold contextValue, colorSchemeObject.
  destruct (resolveColorScheme mode systemScheme); simpl; [done|].
  split; [done|]. by destruct (truthy (dark (colorScheme inputTheme))).
Qed.

(** ** The standalone [styled] and the module-level caches *)

Section module_caches.
Variable defaultTokens : DefaultTokens.
Variable inputTheme : option (obj value).
Variable inputUtils : UtilsConfig.

Local Abbreviation runOp' := (runOp defaultTokens inputTheme inputUtils).
Local Abbreviation runOps' := (runOps defaultTokens inputTheme inputUtils).

Lemma runOp_styleCache_mono op st ref key r :
  styleCache st !! ref ≫= (.!! key) = Some r ->
  styleCache (runOp' st op) !! ref ≫= (.!! key) = Some r.
Proof.
  intros Hr. destruct op as [c|d props| |config|d props]; simpl; [done| |done|done|].
  - unfold computeStyles.
    destruct (props ≫= theme) as [t|], (configOrFactory d) as [c|f]; simpl.
    all: match goal with
         | |- context [match ?look with Some _ => _ | None => _ end] =>
             by destruct look
         end.
  - unfold standalone.computeStyles.
    destruct (styleCache st !! standalone.s_configRef d ≫= _) eqn:Hlook; simpl;
      [done|].
    by apply lookup_insert_nested_mono.
Qed.

Lemma runOps_styleCache_mono ops st ref key r :
  styleCache st !! ref ≫= (.!! key) = Some r ->
  styleCache (runOps' ops st) !! ref ≫= (.!! key) = Some r.
Proof.
  unfold runOps. revert st. induction ops as [|op ops IH]; intros st Hr; simpl; [done|].
  by apply IH, runOp_styleCache_mono.
Qed.

Lemma runOp_primitiveCache op st :
  primitiveCache st = ∅ -> primitiveCache (runOp' st op) = ∅.
Proof.
  intros Hempty. destruct op as [c|d props| |config|d props]; simpl; [done| |done|done|].
  - unfold computeStyles.
    destruct (props ≫= theme) as [t|], (configOrFactory d) as [c|f]; simpl.
    all: match goal with
         | |- context [match ?look with Some _ => _ | None => _ end] =>
             by destruct look
         end.
  - unfold standalone.computeStyles.
    by destruct (styleCache st !! standalone.s_configRef d ≫= _).
Qed.

Lemma runOps_primitiveCache ops st :
  primitiveCache st = ∅ -> primitiveCache (runOps' ops st) = ∅.
Proof.
  unfold runOps. revert st.
  induction ops as [|op ops IH]; intros st Hst; simpl; [done|].
  by apply IH, runOp_primitiveCache.
Qed.

(** X19. The closure of the standalone [styled] memoises for good: once a
    call has returned a reference, a call with observationally equal props
    returns that reference, and changes nothing, after any sequence of
    [styled], [computeStyles] and [clearStyleCache] operations. *)
Theorem standalone_computeStyles_stable d (props1 props2 : obj value) st ops :
  Obj.wf props1 -> Obj.wf props2 -> sameSelections props1 props2 ->
  standalone.computeStyles d (Some props2)
    (runOps' ops (standalone.computeStyles d (Some props1) st).2)
  = ((standalone.computeStyles d (Some props1) st).1,
     runOps' ops (standalone.computeStyles d (Some props1) st).2).
Proof.
  intros Hwf1 Hwf2 Hsame.
  assert (Hlook :
    styleCache (standalone.computeStyles d (Some props1) st).2
      !! standalone.s_configRef d ≫= (.!! createCacheKey (Some props1))
    = Some (standalone.computeStyles d (Some props1) st).1).
  { unfold standalone.computeStyles.
    destruct (styleCache st !! standalone.s_configRef d
                ≫= (.!! createCacheKey (Some props1))) as [r|] eqn:Hhit; simpl.
    - done.
    - rewrite lookup_insert_eq. simpl. by rewrite lookup_insert_eq. }
  apply (runOps_styleCache_mono ops) in Hlook.
  unfold standalone.computeStyles at 1.
  rewrite <-(createCacheKey_sameSelections props1 props2) by done.
  by rewrite Hlook.
Qed.

(** X20. Nothing ever writes the string-keyed module cache, the only
    cache [clearStyleCache] empties: in every store reached from the
    initial one, [clearStyleCache] changes nothing at all. *)
Theorem clearStyleCache_noop ops :
  (clearStyleCache (runOps' ops emptyStore)).2 = runOps' ops emptyStore.
Proof.
  assert (Hempty : primitiveCache (runOps' ops emptyStore) = ∅)
    by by apply runOps_primitiveCache.
  unfold clearStyleCache. simpl. rewrite <-Hempty. by destruct (runOps' ops emptyStore).
Qed.

End module_caches.

Lemma standalone_computeStyles_stable_witness :
  standalone.computeStyles (standalone.styled buttonConfig emptyStore).1
    (Some [("tone", VUndefined); ("size", VStr "lg")])
    (runOps sampleTokens sampleTheme sampleUtils [OpClear]
       (standalone.computeStyles (standalone.styled buttonConfig emptyStore).1
          (Some [("size", VStr "lg")])
          (standalone.styled buttonConfig emptyStore).2).2)
  = (0,
     runOps sampleTokens sampleTheme sampleUtils [OpClear]
       (standalone.computeStyles (standalone.styled buttonConfig emptyStore).1
          (Some [("size", VStr "lg")])
          (standalone.styled buttonConfig emptyStore).2).2).
Proof.
  apply (standalone_computeStyles_stable sampleTokens sampleTheme sampleUtils
           (standalone.styled buttonConfig emptyStore).1
           [("size", VStr "lg")] [("tone", VUndefined); ("size", VStr "lg")]
           (standalone.styled buttonConfig emptyStore).2 [OpClear]).
  - decide_by_compute.
  - decide_by_compute.
  - by vm_compute.
Defined.
